(** * Deductive proofs in propositional logic: specialization and inlining

    A shallow embedding of [propositions/proofs.py] (inference rules,
    specialization maps, proofs and their validity, [prove_specialization],
    [_inline_proof_once], [inline_proof]) and of the two name conversions of
    [predicates/functions.py], together with the properties established
    about them. *)

From Stdlib Require Import ZArith Lia Ascii String List.
From stdpp Require Import base option list strings countable gmap.

Local Open Scope Z_scope.

(** ** Python exceptions

    The fallible parts of the code ([assert], indexing a tuple, looking a key
    up in a [dict], [tuple.index]) return in a small error monad. *)

Inductive error :=
  | AssertionError
  | IndexError
  | KeyError
  | ValueError
  | TypeError
  | AttributeError.

Inductive result (A : Type) :=
  | Ok (a : A)
  | Err (e : error).

Arguments Ok {A} a.
Arguments Err {A} e.

Definition rbind {A B} (r : result A) (k : A → result B) : result B :=
  match r with
  | Ok a => k a
  | Err e => Err e
  end.

Notation "'let!' x ':=' r 'in' k" := (rbind r (λ x, k))
  (at level 10, x name, r at level 100, k at level 200).

Definition assert (b : bool) : result unit :=
  if b then Ok tt else Err AssertionError.

(** [[f(x) for x in xs]], stopping at the first exception. *)
Fixpoint rmap {A B} (f : A → result B) (xs : list A) : result (list B) :=
  match xs with
  | [] => Ok []
  | x :: xs' => let! y := f x in let! ys := rmap f xs' in Ok (y :: ys)
  end.

(** [t[i]] for a tuple or list [t] and a Python integer [i]: a negative [i]
    counts from the end, and an index outside [-len(t) .. len(t)-1] raises
    [IndexError]. *)
Definition py_index {A} (t : list A) (i : Z) : result A :=
  let n := Z.of_nat (length t) in
  let k := if Z.ltb i 0 then i + n else i in
  if Z.ltb k 0 then Err IndexError
  else match t !! Z.to_nat k with
       | Some x => Ok x
       | None => Err IndexError
       end.

(** ** Formulas *)

(** Modelled from the spec: the formula class of [propositions/syntax.py],
    which is not among the sources.  A formula is an immutable tree compared
    by value; its root is classified as a constant, a variable name, a unary
    operator or a binary operator, and the operands of an operator are its
    [first] and [second] subformulas.  The four classes of roots are the four
    constructors, so that [is_constant(f.root)], [is_variable(f.root)],
    [is_unary(f.root)] and [is_binary(f.root)] are the tests on the
    constructor of [f], and the payload of [FVar] ranges over the variable
    names. *)
Inductive Formula :=
  | FConst (root : string)
  | FVar (root : string)
  | FUnary (root : string) (first : Formula)
  | FBinary (root : string) (first second : Formula).

#[global] Instance Formula_eq_dec : EqDecision Formula.
Proof. solve_decision. Defined.

Fixpoint Formula_encode (f : Formula) : gen_tree string :=
  match f with
  | FConst r => GenNode 0 [GenLeaf r]
  | FVar r => GenNode 1 [GenLeaf r]
  | FUnary r a => GenNode 2 [GenLeaf r; Formula_encode a]
  | FBinary r a b => GenNode 3 [GenLeaf r; Formula_encode a; Formula_encode b]
  end.

Fixpoint Formula_decode (t : gen_tree string) : Formula :=
  match t with
  | GenNode 0 [GenLeaf r] => FConst r
  | GenNode 1 [GenLeaf r] => FVar r
  | GenNode 2 [GenLeaf r; a] => FUnary r (Formula_decode a)
  | GenNode 3 [GenLeaf r; a; b] => FBinary r (Formula_decode a) (Formula_decode b)
  | _ => FConst ""
  end.

#[global] Instance Formula_countable : Countable Formula.
Proof.
  refine (inj_countable' Formula_encode Formula_decode _).
  intros f. induction f; simpl; congruence.
Defined.

(** A mapping from variable names to formulas ([SpecializationMap]).  The
    keys are variable names by typing, which is what the assertions
    [is_variable(variable)] on the keys of a map ask for. *)
Abbreviation SpecializationMap := (gmap string Formula).

(** Modelled from the spec: [Formula.substitute_variables] of
    [propositions/syntax.py], which is not among the sources: the
    simultaneous replacement of every variable that is a key of the map by
    the formula bound to it; the other variables stay. *)
Fixpoint substitute_variables (f : Formula) (substitution_map : SpecializationMap)
  : Formula :=
  match f with
  | FConst r => FConst r
  | FVar r => default (FVar r) (substitution_map !! r)
  | FUnary r a => FUnary r (substitute_variables a substitution_map)
  | FBinary r a b =>
      FBinary r (substitute_variables a substitution_map)
                (substitute_variables b substitution_map)
  end.

Module Formula.

(** Modelled from the spec: [Formula.variables] of [propositions/syntax.py],
    which is not among the sources: the set of the variable names that occur
    in the formula. *)
Fixpoint variables (self : Formula) : gset string :=
  match self with
  | FConst _ => ∅
  | FVar r => {[ r ]}
  | FUnary _ a => variables a
  | FBinary _ a b => variables a ∪ variables b
  end.

End Formula.

(** ** Inference rules *)

Record InferenceRule := mkInferenceRule {
  assumptions : list Formula;
  conclusion : Formula;
}.

#[global] Instance InferenceRule_eq_dec : EqDecision InferenceRule.
Proof. solve_decision. Defined.

#[global] Instance InferenceRule_countable : Countable InferenceRule.
Proof.
  refine (inj_countable' (λ r, (assumptions r, conclusion r))
            (λ p, mkInferenceRule p.1 p.2) _).
  by intros [].
Defined.

Module InferenceRule.

(** [InferenceRule.variables] *)
Definition variables (self : InferenceRule) : gset string :=
  fold_left (λ vars f, vars ∪ Formula.variables f) (assumptions self)
            (Formula.variables (conclusion self)).

(** [InferenceRule.specialize] *)
Definition specialize (self : InferenceRule)
    (specialization_map : SpecializationMap) : InferenceRule :=
  let concl := substitute_variables (conclusion self) specialization_map in
  let assums :=
    map (λ f, substitute_variables f specialization_map) (assumptions self) in
  mkInferenceRule assums concl.

(** The loop of [_merge_specialization_maps] over the items of the first
    map: [sum] starts as a copy of the second map; a key of both maps bound
    to different formulas sets [answer = False] and leaves the loop. *)
Fixpoint merge_loop (items : list (string * Formula))
    (specialization_map2 sum : SpecializationMap) : option SpecializationMap :=
  match items with
  | [] => Some sum
  | (p, v) :: items' =>
      match specialization_map2 !! p with
      | Some v2 =>
          if decide (v = v2)
          then merge_loop items' specialization_map2 sum
          else None
      | None => merge_loop items' specialization_map2 (<[p := v]> sum)
      end
  end.

(** [InferenceRule._merge_specialization_maps] *)
Definition _merge_specialization_maps
    (specialization_map1 specialization_map2 : option SpecializationMap)
  : option SpecializationMap :=
  match specialization_map1, specialization_map2 with
  | Some m1, Some m2 => merge_loop (map_to_list m1) m2 m2
  | _, _ => None
  end.

(** [InferenceRule._formula_specialization_map].  The tests on
    [general.root] run in the order constant, variable, unary, binary.  Roots
    of different classes are different strings, so [general.root ==
    specialization.root] for an operator also says that [specialization] is
    built with the same kind of operator; a constant that differs from the
    specialization falls off the end of the function, which returns
    [None]. *)
Fixpoint _formula_specialization_map (general specialization : Formula)
  : option SpecializationMap :=
  match general with
  | FConst _ =>
      if decide (general = specialization) then Some ∅ else None
  | FVar r => Some {[ r := specialization ]}
  | FUnary r g1 =>
      match specialization with
      | FUnary r' s1 =>
          if decide (r = r') then _formula_specialization_map g1 s1 else None
      | _ => None
      end
  | FBinary r g1 g2 =>
      match specialization with
      | FBinary r' s1 s2 =>
          if decide (r = r') then
            let sm1 := _formula_specialization_map g1 s1 in
            let sm2 := _formula_specialization_map g2 s2 in
            _merge_specialization_maps sm1 sm2
          else None
      | _ => None
      end
  end.

(** The loop of [specialization_map] over the positions of the
    assumptions. *)
Fixpoint specialization_map_loop (gs ss : list Formula)
    (sm : option SpecializationMap) : option SpecializationMap :=
  match gs, ss with
  | g :: gs', s :: ss' =>
      let sm1 := _formula_specialization_map g s in
      specialization_map_loop gs' ss' (_merge_specialization_maps sm sm1)
  | _, _ => sm
  end.

(** [InferenceRule.specialization_map] *)
Definition specialization_map (self specialization : InferenceRule)
  : option SpecializationMap :=
  let sm :=
    _formula_specialization_map (conclusion self) (conclusion specialization) in
  if negb (length (assumptions self) =? length (assumptions specialization))%nat
  then None
  else specialization_map_loop (assumptions self) (assumptions specialization) sm.

(** [InferenceRule.is_specialization_of] *)
Definition is_specialization_of (self general : InferenceRule) : bool :=
  bool_decide (specialization_map general self ≠ None).

End InferenceRule.

(** ** Proofs and their lines *)

(** [Proof.Line]: a line is justified either as an assumption of the proof
    ([rule] and [assumptions] are both [None]) or by an inference rule and
    the numbers of the lines that supply its assumptions; the assertion of
    the constructor excludes the two mixed forms.  The numbers are Python
    integers. *)
Inductive Line :=
  | AssumptionLine (formula : Formula)
  | DerivationLine (formula : Formula) (rule : InferenceRule)
                   (assumptions : list Z).

#[global] Instance Line_eq_dec : EqDecision Line.
Proof. solve_decision. Defined.

Module Line.

Definition formula (self : Line) : Formula :=
  match self with
  | AssumptionLine f => f
  | DerivationLine f _ _ => f
  end.

Definition rule (self : Line) : option InferenceRule :=
  match self with
  | AssumptionLine _ => None
  | DerivationLine _ r _ => Some r
  end.

Definition assumptions (self : Line) : option (list Z) :=
  match self with
  | AssumptionLine _ => None
  | DerivationLine _ _ js => Some js
  end.

(** [Proof.Line.is_assumption] *)
Definition is_assumption (self : Line) : bool :=
  bool_decide (rule self = None).

(** [Proof.Line(new_formula, line.rule, line.assumptions)] *)
Definition with_formula (new_formula : Formula) (self : Line) : Line :=
  match self with
  | AssumptionLine _ => AssumptionLine new_formula
  | DerivationLine _ r js => DerivationLine new_formula r js
  end.

End Line.

Record Proof := mkProof {
  statement : InferenceRule;
  rules : gset InferenceRule;
  lines : list Line;
}.

Module Proof.

(** [Proof.rule_for_line] *)
Definition rule_for_line (self : Proof) (line_number : nat)
  : result (option InferenceRule) :=
  let! _ := assert (line_number <? length (lines self))%nat in
  match lines self !! line_number with
  | None => Err IndexError
  | Some (AssumptionLine _) => Ok None
  | Some (DerivationLine concl _ js) =>
      let! assums :=
        rmap (λ i, let! l := py_index (lines self) i in Ok (Line.formula l)) js in
      Ok (Some (mkInferenceRule assums concl))
  end.

(** [Proof.is_line_valid] *)
Definition is_line_valid (self : Proof) (line_number : nat) : result bool :=
  let! _ := assert (line_number <? length (lines self))%nat in
  let! r := rule_for_line self line_number in
  match r, lines self !! line_number with
  | None, Some line =>
      Ok (bool_decide (Line.formula line ∈ assumptions (statement self)))
  | Some r, Some (DerivationLine _ rule js) =>
      if existsb (λ i, (i >=? Z.of_nat line_number)%Z) js then Ok false
      else if bool_decide (rule ∈ rules self)
           then Ok (InferenceRule.is_specialization_of r rule)
           else Ok false
  | _, _ => Err IndexError
  end.

(** The loop of [is_valid] over the line numbers, which returns at the
    first line that is not valid. *)
Fixpoint is_valid_loop (self : Proof) (line_numbers : list nat) : result bool :=
  match line_numbers with
  | [] => Ok true
  | i :: line_numbers' =>
      let! v := is_line_valid self i in
      if v then is_valid_loop self line_numbers' else Ok false
  end.

(** [Proof.is_valid] *)
Definition is_valid (self : Proof) : result bool :=
  let proof_length := length (lines self) in
  if (proof_length =? 0)%nat then Ok false
  else
    let! all_valid := is_valid_loop self (seq 0 proof_length) in
    if all_valid then
      match lines self !! (proof_length - 1)%nat with
      | Some line =>
          Ok (bool_decide (Line.formula line = conclusion (statement self)))
      | None => Err IndexError
      end
    else Ok false.

End Proof.

(** [assert proof.is_valid()] *)
Definition assert_valid (proof : Proof) : result unit :=
  let! v := Proof.is_valid proof in assert v.

(** [prove_specialization].  After the two assertions the map is not
    [None]; substituting with [None] would raise. *)
Definition prove_specialization (proof : Proof) (specialization : InferenceRule)
  : result Proof :=
  let! _ := assert_valid proof in
  let! _ := assert
    (InferenceRule.is_specialization_of specialization (statement proof)) in
  match InferenceRule.specialization_map (statement proof) specialization with
  | Some specialization_map =>
      let new_lines :=
        map (λ line,
               let new_formula :=
                 substitute_variables (Line.formula line) specialization_map in
               Line.with_formula new_formula line)
            (lines proof) in
      Ok (mkProof specialization (rules proof) new_lines)
  | None => Err TypeError
  end.

(** ** Inlining a proof of a lemma *)

(** [t.index(x)]: the first position of [x] in [t]; [ValueError] when [x] is
    not in [t]. *)
Fixpoint tuple_index {A} `{EqDecision A} (t : list A) (x : A) : result nat :=
  match t with
  | [] => Err ValueError
  | y :: t' =>
      if decide (y = x) then Ok 0%nat
      else let! k := tuple_index t' x in Ok (S k)
  end.

(** [d[k]] for a [dict] [d]; [KeyError] when [k] is not a key. *)
Definition dict_get (d : gmap Z Z) (k : Z) : result Z :=
  match d !! k with
  | Some v => Ok v
  | None => Err KeyError
  end.

(** The variables that the first loop of [_inline_proof_once] updates. *)
Record splice := mkSplice {
  new_lines : list Line;
  assumptions_count : Z;
  subs : gmap Z Z;
}.

(** One round of the loop of [_inline_proof_once] over the lines of the
    specialized lemma proof. *)
Definition splice_line (partial_statement : InferenceRule)
    (main_assumptions : list Z) (st : splice) (i : nat) (line : Line)
  : result splice :=
  match line with
  | AssumptionLine f =>
      let! index := tuple_index (assumptions partial_statement) f in
      let! s := py_index main_assumptions (Z.of_nat index) in
      Ok (mkSplice (new_lines st) (assumptions_count st + 1)
                   (<[Z.of_nat i := s]> (subs st)))
  | DerivationLine f r js =>
      let! new_assumptions := rmap (dict_get (subs st)) js in
      Ok (mkSplice (new_lines st ++ [DerivationLine f r new_assumptions])%list
                   (assumptions_count st)
                   (<[Z.of_nat i := Z.of_nat (length (new_lines st))]> (subs st)))
  end.

(** [for i, line in enumerate(partial_proof.lines)], from position [i] on. *)
Fixpoint splice_loop (partial_statement : InferenceRule)
    (main_assumptions : list Z) (i : nat) (partial_lines : list Line)
    (st : splice) : result splice :=
  match partial_lines with
  | [] => Ok st
  | line :: partial_lines' =>
      let! st' := splice_line partial_statement main_assumptions st i line in
      splice_loop partial_statement main_assumptions (S i) partial_lines' st'
  end.

(** The line that the last loop of [_inline_proof_once] appends for a line
    of the main proof after [line_number]. *)
Definition shift_line (line_number : nat) (offset : Z) (line : Line) : Line :=
  match line with
  | AssumptionLine _ => line
  | DerivationLine f r js =>
      let new_assumptions :=
        map (λ j, if (j <? Z.of_nat line_number)%Z then j else j + offset) js in
      DerivationLine f r new_assumptions
  end.

(** [_inline_proof_once] *)
Definition _inline_proof_once (main_proof : Proof) (line_number : nat)
    (lemma_proof : Proof) : result Proof :=
  let! _ := assert_valid main_proof in
  let! _ := assert (line_number <? length (lines main_proof))%nat in
  let! main_line := py_index (lines main_proof) (Z.of_nat line_number) in
  let! _ := assert
    (bool_decide (Line.rule main_line = Some (statement lemma_proof))) in
  let! _ := assert_valid lemma_proof in
  let! target := Proof.rule_for_line main_proof line_number in
  match target, Line.assumptions main_line with
  | Some target, Some main_assumptions =>
      let! partial_proof := prove_specialization lemma_proof target in
      let! st :=
        splice_loop (statement partial_proof) main_assumptions 0
          (lines partial_proof)
          (mkSplice (take line_number (lines main_proof)) 0 ∅) in
      let offset :=
        Z.of_nat (length (lines partial_proof)) - assumptions_count st - 1 in
      let new_lines :=
        (new_lines st ++
         map (shift_line line_number offset)
             (drop (S line_number) (lines main_proof)))%list in
      Ok (mkProof (statement main_proof)
                  (rules main_proof ∪ rules lemma_proof) new_lines)
  | _, _ => Err AttributeError
  end.

(** The condition of the scan of [inline_proof]:
    [not line.is_assumption() and line.rule == lemma_proof.statement]. *)
Definition uses_lemma (lemma_statement : InferenceRule) (line : Line) : bool :=
  negb (Line.is_assumption line)
  && bool_decide (Line.rule line = Some lemma_statement).

(** The [while True] loop of [inline_proof]: every round scans the lines for
    the first one that uses the lemma and inlines the lemma proof there; the
    loop ends when the scan finds none.  [None] is a loop that is still
    running when the fuel is spent. *)
Fixpoint inline_proof_loop (fuel : nat) (new_proof lemma_proof : Proof)
  : option (result Proof) :=
  match fuel with
  | O => None
  | S fuel' =>
      match list_find (λ line, uses_lemma (statement lemma_proof) line = true)
                      (lines new_proof) with
      | Some (i, _) =>
          match _inline_proof_once new_proof i lemma_proof with
          | Ok new_proof' => inline_proof_loop fuel' new_proof' lemma_proof
          | Err e => Some (Err e)
          end
      | None => Some (Ok new_proof)
      end
  end.

(** [inline_proof] *)
Definition inline_proof (fuel : nat) (main_proof lemma_proof : Proof)
  : option (result Proof) :=
  match assert_valid main_proof, assert_valid lemma_proof with
  | Err e, _ => Some (Err e)
  | Ok _, Err e => Some (Err e)
  | Ok _, Ok _ =>
      match inline_proof_loop fuel main_proof lemma_proof with
      | Some (Ok new_proof) =>
          Some (Ok (mkProof (statement new_proof)
                            (rules new_proof ∖ {[ statement lemma_proof ]})
                            (lines new_proof)))
      | other => other
      end
  end.

(** ** Relation names for function names ([predicates/functions.py]) *)

(** [c.upper()] and [c.lower()] for a character of the ASCII range. *)
Definition upper (c : ascii) : ascii :=
  let n := nat_of_ascii c in
  if ((97 <=? n) && (n <=? 122))%nat then ascii_of_nat (n - 32) else c.

Definition lower (c : ascii) : ascii :=
  let n := nat_of_ascii c in
  if ((65 <=? n) && (n <=? 90))%nat then ascii_of_nat (n + 32) else c.

Definition isalnum_char (c : ascii) : bool :=
  let n := nat_of_ascii c in
  (((48 <=? n) && (n <=? 57)) || ((65 <=? n) && (n <=? 90))
   || ((97 <=? n) && (n <=? 122)))%nat.

Fixpoint all_chars (p : ascii → bool) (s : string) : bool :=
  match s with
  | EmptyString => true
  | String c s' => p c && all_chars p s'
  end.

(** Modelled from the spec: [is_function] of [predicates/syntax.py], which is
    not among the sources: a valid function name is an alphanumeric string
    that starts with a letter between [f] and [t]. *)
Definition is_function (s : string) : bool :=
  match s with
  | EmptyString => false
  | String c _ =>
      let n := nat_of_ascii c in
      ((102 <=? n) && (n <=? 116))%nat && all_chars isalnum_char s
  end.

(** Modelled from the spec: [is_relation] of [predicates/syntax.py], which is
    not among the sources: a valid relation name is an alphanumeric string
    that starts with a letter between [F] and [T]. *)
Definition is_relation (s : string) : bool :=
  match s with
  | EmptyString => false
  | String c _ =>
      let n := nat_of_ascii c in
      ((70 <=? n) && (n <=? 84))%nat && all_chars isalnum_char s
  end.

(** [function_name_to_relation_name] *)
Definition function_name_to_relation_name (function : string) : result string :=
  let! _ := assert (is_function function) in
  match function with
  | EmptyString => Err IndexError
  | String c rest => Ok (String (upper c) rest)
  end.

(** [relation_name_to_function_name] *)
Definition relation_name_to_function_name (relation : string) : result string :=
  let! _ := assert (is_relation relation) in
  match relation with
  | EmptyString => Err IndexError
  | String c rest => Ok (String (lower c) rest)
  end.

(** ** Halving ([prelim/prelim.py]) *)

(** [half]; [%] and [//] are the remainder and the quotient of the floored
    division, as [Z.modulo] and [Z.div] are for a positive divisor. *)
Definition half (x : Z) : result Z :=
  let! _ := assert (x mod 2 =? 0) in
  Ok (x / 2).

(** ** Auxiliary notions for the statements *)

(** The map that substitutes like [m1] followed by [m2]. *)
Definition compose_maps (m1 m2 : SpecializationMap) : SpecializationMap :=
  ((λ g, substitute_variables g m2) <$> m1) ∪ m2.

(** Every justification number of the lines denotes a line of a proof of
    [n] lines, from the start or from the end. *)
Definition in_range (n : nat) (lines : list Line) : Prop :=
  Forall (λ line, match line with
                  | AssumptionLine _ => True
                  | DerivationLine _ _ js =>
                      Forall (λ j, - Z.of_nat n ≤ j < Z.of_nat n) js
                  end) lines.

#[global] Instance in_range_dec n lines : Decision (in_range n lines).
Proof.
  apply Forall_dec. intros [f|f rule js]; [apply _|]. apply Forall_dec.
  intros j. apply _.
Defined.


(** Two maps agree when every key of both is bound to the same formula. *)
Definition agree (m1 m2 : SpecializationMap) : Prop :=
  ∀ k v1 v2, m1 !! k = Some v1 → m2 !! k = Some v2 → v1 = v2.

(** The position that a Python index denotes in a sequence of [n] items. *)
Definition position (n : nat) (i : Z) : option nat :=
  if decide (0 ≤ i < Z.of_nat n) then Some (Z.to_nat i)
  else if decide (- Z.of_nat n ≤ i < 0) then Some (Z.to_nat (i + Z.of_nat n))
  else None.

(** The formulas of the lines that a list of line numbers denotes. *)
Definition formulas_at (lines : list Line) (js : list Z)
    (fs : list Formula) : Prop :=
  Forall2 (λ j f, ∃ l, py_index lines j = Ok l ∧ Line.formula l = f) js fs.

(** The line that [prove_specialization] makes of a line. *)
Definition specialize_line (m : SpecializationMap) (line : Line) : Line :=
  Line.with_formula (substitute_variables (Line.formula line) m) line.

(** A line made from a derivation line by renumbering its justifications. *)
Definition renumbered (new old : Line) : Prop :=
  ∃ f r js js', old = DerivationLine f r js ∧ new = DerivationLine f r js'.

Definition is_derivation (line : Line) : bool := negb (Line.is_assumption line).

(** The number of lines that use the lemma. *)
Definition usage_count (lemma_statement : InferenceRule) (lines : list Line)
  : nat :=
  length (filter (λ line, uses_lemma lemma_statement line = true) lines).

(** No justification number of the lines is negative. *)
Definition nonneg (lines : list Line) : Prop :=
  Forall (λ line, match line with
                  | AssumptionLine _ => True
                  | DerivationLine _ _ js => Forall (λ j, 0 ≤ j) js
                  end) lines.

(** The numbers [js] denote lines before line [i], whose formulas are
    [fs]. *)
Definition cites (lines : list Line) (i : nat) (js : list Z)
    (fs : list Formula) : Prop :=
  Forall2 (λ j g, ∃ k l, j = Z.of_nat k ∧ (k < i)%nat ∧
                         lines !! k = Some l ∧ Line.formula l = g) js fs.

(** Line [i] is an assumption of the statement, or it follows by an allowed
    rule from lines before it. *)
Definition justified (stmt : InferenceRule) (allowed : gset InferenceRule)
    (lines : list Line) (i : nat) (line : Line) : Prop :=
  match line with
  | AssumptionLine f => f ∈ assumptions stmt
  | DerivationLine f r js =>
      r ∈ allowed ∧
      ∃ fs, cites lines i js fs ∧
            InferenceRule.is_specialization_of (mkInferenceRule fs f) r = true
  end.

(** A valid proof without negative justification numbers. *)
Definition proper (self : Proof) : Prop :=
  (∀ i line, lines self !! i = Some line →
     justified (statement self) (rules self) (lines self) i line) ∧
  ∃ line, last (lines self) = Some line ∧
          Line.formula line = conclusion (statement self).

(** What holds of the variables of the loop once the lines [pre] of the
    specialized lemma proof are done. *)
Definition splice_inv (stmt : InferenceRule) (allowed : gset InferenceRule)
    (base : list Line) (n : nat) (pre : list Line) (st : splice) : Prop :=
  (∃ D, new_lines st = (base ++ D)%list ∧
        ∀ k d, D !! k = Some d →
               justified stmt allowed (new_lines st) (n + k) d) ∧
  (∀ k l, pre !! k = Some l →
     ∃ s l', subs st !! Z.of_nat k = Some (Z.of_nat s) ∧
             new_lines st !! s = Some l' ∧
             Line.formula l' = Line.formula l).

(** The last line is a derivation line. *)
Definition ends_with_derivation (lines : list Line) : Prop :=
  ∃ line, last lines = Some line ∧ is_derivation line = true.

(** No line uses the lemma. *)
Definition lemma_free (lemma_statement : InferenceRule) (lines : list Line)
  : Prop :=
  Forall (λ line, uses_lemma lemma_statement line = false) lines.

#[global] Instance nonneg_dec lines : Decision (nonneg lines).
Proof.
  apply Forall_dec. intros [f|f rule js]; [apply _|]. apply Forall_dec.
  intros j. apply _.
Defined.

#[global] Instance lemma_free_dec L lines : Decision (lemma_free L lines).
Proof. apply Forall_dec. intros line. apply _. Defined.

#[global] Instance ends_with_derivation_dec lines :
  Decision (ends_with_derivation lines).
Proof.
  unfold ends_with_derivation. destruct (last lines) as [line|].
  - destruct (is_derivation line) eqn:H.
    + left. eauto.
    + right. intros (? & ? & ?). congruence.
  - right. by intros (? & ? & _).
Defined.

(** ** Example proofs *)

Definition vp : Formula := FVar "p".
Definition vq : Formula := FVar "q".
Definition vr : Formula := FVar "r".
Definition or_ (a b : Formula) : Formula := FBinary "|" a b.

(** The rules [p ⊢ (p|q)], [p ⊢ p] and [p ⊢ (p|p)]. *)
Definition or_intro : InferenceRule := mkInferenceRule [vp] (or_ vp vq).
Definition repeat_rule : InferenceRule := mkInferenceRule [vp] vp.
Definition double : InferenceRule := mkInferenceRule [vp] (or_ vp vp).

(** A proof of [double] from [or_intro]. *)
Definition double_proof : Proof :=
  mkProof double {[ or_intro ]}
    [AssumptionLine vp; DerivationLine (or_ vp vp) or_intro [0]].

(** A proof that uses [double] twice. *)
Definition quadruple_proof : Proof :=
  mkProof (mkInferenceRule [vr] (or_ (or_ vr vr) (or_ vr vr))) {[ double ]}
    [AssumptionLine vr;
     DerivationLine (or_ vr vr) double [0];
     DerivationLine (or_ (or_ vr vr) (or_ vr vr)) double [1]].

(** A rule without assumptions, and a proof of it by itself. *)
Definition anything : InferenceRule := mkInferenceRule [] vp.
Definition circular_proof : Proof :=
  mkProof anything {[ anything ]} [DerivationLine vp anything []].

(** A proof of [repeat_rule] that is its assumption line alone, and a proof
    that uses [repeat_rule] and then the line so justified. *)
Definition repeat_proof : Proof :=
  mkProof repeat_rule ∅ [AssumptionLine vp].
Definition repeat_user : Proof :=
  mkProof (mkInferenceRule [vq; vr] (or_ vq vq)) {[ repeat_rule; double ]}
    [AssumptionLine vq; AssumptionLine vr;
     DerivationLine vq repeat_rule [0];
     DerivationLine (or_ vq vq) double [2]].

(** A proof of [double] whose line counts its justification from the end. *)
Definition double_proof_from_end : Proof :=
  mkProof double {[ or_intro ]}
    [AssumptionLine vp; DerivationLine (or_ vp vp) or_intro [-2]].

(** A line that cites a line number beyond the proof. *)
Definition beyond_proof : Proof :=
  mkProof (mkInferenceRule [] vq) {[ repeat_rule ]}
    [DerivationLine vq repeat_rule [3]].

(** A proof that allows [double] and does not use it. *)
Definition idle_proof : Proof :=
  mkProof (mkInferenceRule [vr] (or_ vr vq)) {[ or_intro; double ]}
    [AssumptionLine vr; DerivationLine (or_ vr vq) or_intro [0]].
Definition double_proof_two_rules : Proof :=
  mkProof double {[ or_intro; repeat_rule ]}
    [AssumptionLine vp; DerivationLine (or_ vp vp) or_intro [0]].



(** * Properties *)

(** ** The name conversions *)

Lemma upper_code (c : ascii) :
  (97 ≤ nat_of_ascii c ≤ 122)%nat →
  nat_of_ascii (upper c) = (nat_of_ascii c - 32)%nat.
Proof.
  intros Hc. unfold upper.
  assert ((97 <=? nat_of_ascii c)%nat && (nat_of_ascii c <=? 122)%nat = true) as ->.
  { apply andb_true_iff. split; apply Nat.leb_le; lia. }
  apply nat_ascii_embedding. lia.
Qed.

Lemma lower_upper (c : ascii) :
  (97 ≤ nat_of_ascii c ≤ 122)%nat → lower (upper c) = c.
Proof.
  intros Hc. unfold lower. rewrite (upper_code c Hc).
  assert ((65 <=? nat_of_ascii c - 32)%nat && (nat_of_ascii c - 32 <=? 90)%nat = true) as ->.
  { apply andb_true_iff. split; apply Nat.leb_le; lia. }
  replace (nat_of_ascii c - 32 + 32)%nat with (nat_of_ascii c) by lia.
  apply ascii_nat_embedding.
Qed.

Lemma isalnum_upper (c : ascii) :
  (97 ≤ nat_of_ascii c ≤ 122)%nat → isalnum_char (upper c) = true.
Proof.
  intros Hc. unfold isalnum_char. rewrite (upper_code c Hc).
  apply orb_true_iff. left. apply orb_true_iff. right.
  apply andb_true_iff. split; apply Nat.leb_le; lia.
Qed.

Lemma all_chars_cons (p : ascii → bool) (c : ascii) (s : string) :
  all_chars p (String c s) = p c && all_chars p s.
Proof. reflexivity. Qed.

Lemma is_function_inv (f : string) :
  is_function f = true →
  ∃ c rest, f = String c rest ∧ (102 ≤ nat_of_ascii c ≤ 116)%nat ∧
            all_chars isalnum_char rest = true.
Proof.
  destruct f as [|c rest]; [done|]. unfold is_function.
  rewrite all_chars_cons.
  intros H. apply andb_true_iff in H as [H1 H2].
  apply andb_true_iff in H1 as [Ha Hb]. apply andb_true_iff in H2 as [_ H2].
  apply Nat.leb_le in Ha, Hb. eauto 10.
Qed.

(** C10: [function_name_to_relation_name] capitalizes the first letter of its
    argument (it maps [plus] to [Plus]), and for every valid function name
    [f], [relation_name_to_function_name] applied to the relation name of
    [f] gives [f] back. *)
Theorem function_name_round_trip :
  function_name_to_relation_name "plus" = Ok "Plus" ∧
  ∀ f : string, is_function f = true →
    ∃ c C rest,
      f = String c rest ∧
      nat_of_ascii C = (nat_of_ascii c - 32)%nat ∧
      function_name_to_relation_name f = Ok (String C rest) ∧
      relation_name_to_function_name (String C rest) = Ok f.
Proof.
  split; [reflexivity|].
  intros f Hf. destruct (is_function_inv f Hf) as (c & rest & -> & Hc & Hrest).
  exists c, (upper c), rest.
  assert (97 ≤ nat_of_ascii c ≤ 122)%nat as Hc' by lia.
  split; [done|]. split; [by apply upper_code|]. split.
  - unfold function_name_to_relation_name. by rewrite Hf.
  - unfold relation_name_to_function_name.
    assert (is_relation (String (upper c) rest) = true) as ->.
    { unfold is_relation.
      rewrite all_chars_cons, (upper_code c Hc'), (isalnum_upper c Hc'), Hrest.
      rewrite !andb_true_r. apply andb_true_iff. split; apply Nat.leb_le; lia. }
    unfold assert, rbind. by rewrite lower_upper.
Qed.

Lemma function_name_round_trip_witness :
  is_function "times" = true ∧
  ∃ c C rest,
    "times" = String c rest ∧
    nat_of_ascii C = (nat_of_ascii c - 32)%nat ∧
    function_name_to_relation_name "times" = Ok (String C rest) ∧
    relation_name_to_function_name (String C rest) = Ok "times".
Proof.
  split; [reflexivity|].
  apply (proj2 function_name_round_trip "times"). reflexivity.
Defined.

(** ** Merging specialization maps *)

Section merge.
Import InferenceRule.

Lemma merge_loop_None items m2 sum :
  merge_loop items m2 sum = None ↔
  ∃ p v v2, (p, v) ∈ items ∧ m2 !! p = Some v2 ∧ v ≠ v2.
Proof.
  revert sum. induction items as [|[p v] items IH]; intros sum; simpl.
  - split; [done|]. intros (? & ? & ? & H & _). by apply elem_of_nil in H.
  - destruct (m2 !! p) as [v2|] eqn:Hp.
    + destruct (decide (v = v2)) as [->|Hne].
      * rewrite IH. split.
        -- intros (p' & v' & v2' & Hin & H). exists p', v', v2'.
           split; [by apply elem_of_cons; right|done].
        -- intros (p' & v' & v2' & Hin & Hl & Hne).
           apply elem_of_cons in Hin as [Heq|Hin]; [|by eauto 10].
           simplify_eq.
      * split; [|done]. intros _. exists p, v, v2.
        split; [by apply elem_of_cons; left|done].
    + rewrite IH. split.
      * intros (p' & v' & v2' & Hin & H). exists p', v', v2'.
        split; [by apply elem_of_cons; right|done].
      * intros (p' & v' & v2' & Hin & Hl & Hne).
        apply elem_of_cons in Hin as [Heq|Hin]; [|by eauto 10].
        simplify_eq.
Qed.

Lemma merge_loop_lookup items m2 sum r :
  NoDup items.*1 →
  merge_loop items m2 sum = Some r →
  ∀ k, r !! k =
       match m2 !! k with
       | Some _ => sum !! k
       | None =>
           match (list_to_map items : SpecializationMap) !! k with
           | Some v => Some v
           | None => sum !! k
           end
       end.
Proof.
  revert sum. induction items as [|[p v] items IH]; intros sum Hnd Hr k; simpl in *.
  - simplify_eq. rewrite lookup_empty. by destruct (m2 !! k).
  - apply NoDup_cons in Hnd as [Hp Hnd].
    destruct (m2 !! p) as [v2|] eqn:Hm2.
    + destruct (decide (v = v2)) as [->|]; [|done].
      rewrite (IH sum Hnd Hr k).
      destruct (m2 !! k) eqn:Hk; [done|].
      rewrite lookup_insert_ne; [done|]. intros ->. congruence.
    + rewrite (IH _ Hnd Hr k).
      destruct (decide (p = k)) as [->|Hne].
      * rewrite Hm2, lookup_insert_eq.
        rewrite (not_elem_of_list_to_map_1 _ k Hp). by rewrite lookup_insert_eq.
      * rewrite !(lookup_insert_ne _ p k) by done. done.
Qed.

Lemma merge_Some m1 m2 r :
  _merge_specialization_maps (Some m1) (Some m2) = Some r ↔
  agree m1 m2 ∧ r = m1 ∪ m2.
Proof.
  unfold _merge_specialization_maps. split.
  - intros Hr. assert (agree m1 m2) as Hag.
    { intros k v1 v2 H1 H2. destruct (decide (v1 = v2)) as [|Hne]; [done|].
      assert (merge_loop (map_to_list m1) m2 m2 = None) as Hn; [|congruence].
      apply merge_loop_None. exists k, v1, v2.
      by rewrite elem_of_map_to_list. }
    split; [done|]. apply map_eq. intros k.
    rewrite (merge_loop_lookup _ _ _ _ (NoDup_fst_map_to_list m1) Hr k).
    rewrite list_to_map_to_list, lookup_union.
    destruct (m1 !! k) as [v1|] eqn:H1, (m2 !! k) as [v2|] eqn:H2; simpl;
      try done.
    by rewrite (Hag k v1 v2 H1 H2).
  - intros [Hag ->].
    destruct (merge_loop (map_to_list m1) m2 m2) as [r|] eqn:Hr.
    + f_equal. apply map_eq. intros k.
      rewrite (merge_loop_lookup _ _ _ _ (NoDup_fst_map_to_list m1) Hr k).
      rewrite list_to_map_to_list, lookup_union.
      destruct (m1 !! k) as [v1|] eqn:H1, (m2 !! k) as [v2|] eqn:H2; simpl;
        try done.
      by rewrite (Hag k v1 v2 H1 H2).
    + apply merge_loop_None in Hr as (p & v & v2 & Hin & Hl & Hne).
      apply elem_of_map_to_list in Hin. destruct Hne. eauto.
Qed.

Lemma merge_None m1 m2 :
  _merge_specialization_maps (Some m1) (Some m2) = None ↔ ¬ agree m1 m2.
Proof.
  split.
  - intros Hn Hag.
    assert (_merge_specialization_maps (Some m1) (Some m2) = Some (m1 ∪ m2))
      as HS by by apply merge_Some.
    congruence.
  - intros Hnag.
    destruct (_merge_specialization_maps (Some m1) (Some m2)) eqn:Hr; [|done].
    apply merge_Some in Hr as [Hag _]. done.
Qed.

Lemma merge_is_Some sm1 sm2 r :
  _merge_specialization_maps sm1 sm2 = Some r ↔
  ∃ m1 m2, sm1 = Some m1 ∧ sm2 = Some m2 ∧ agree m1 m2 ∧ r = m1 ∪ m2.
Proof.
  destruct sm1 as [m1|], sm2 as [m2|].
  - rewrite merge_Some. naive_solver.
  - simpl. naive_solver.
  - simpl. naive_solver.
  - simpl. naive_solver.
Qed.

End merge.

(** C6: merging fails exactly when one of the two maps is the failure value
    or some variable name is a key of both maps bound to different formulas;
    otherwise it succeeds with the key-wise union of the two maps. *)
Theorem merge_specialization_maps_spec
    (specialization_map1 specialization_map2 : option SpecializationMap) :
  (InferenceRule._merge_specialization_maps
     specialization_map1 specialization_map2 = None ↔
   specialization_map1 = None ∨ specialization_map2 = None ∨
   ∃ m1 m2 k v1 v2,
     specialization_map1 = Some m1 ∧ specialization_map2 = Some m2 ∧
     m1 !! k = Some v1 ∧ m2 !! k = Some v2 ∧ v1 ≠ v2) ∧
  (InferenceRule._merge_specialization_maps
     specialization_map1 specialization_map2 ≠ None →
   ∃ m1 m2,
     specialization_map1 = Some m1 ∧ specialization_map2 = Some m2 ∧
     InferenceRule._merge_specialization_maps
       specialization_map1 specialization_map2 = Some (m1 ∪ m2) ∧
     ∀ k, (m1 ∪ m2) !! k =
          match m1 !! k with Some v => Some v | None => m2 !! k end).
Proof.
  split.
  - destruct specialization_map1 as [m1|], specialization_map2 as [m2|];
      try (simpl; naive_solver).
    split.
    + intros Hn. right; right. exists m1, m2.
      apply merge_loop_None in Hn as (k & v1 & v2 & Hin & H2 & Hne).
      apply elem_of_map_to_list in Hin. eauto 10.
    + intros [|[|(a & b & k & v1 & v2 & ? & ? & H1 & H2 & Hne)]]; try done.
      simplify_eq. apply merge_None. intros Hag. by apply Hne, (Hag k).
  - intros Hne.
    destruct (InferenceRule._merge_specialization_maps
                specialization_map1 specialization_map2) as [r|] eqn:Hr; [|done].
    apply merge_is_Some in Hr as (m1 & m2 & -> & -> & Hag & ->).
    exists m1, m2. split_and!; try done.
    intros k. rewrite lookup_union.
    by destruct (m1 !! k), (m2 !! k).
Qed.

Lemma merge_specialization_maps_spec_witness :
  InferenceRule._merge_specialization_maps
    (Some {[ "p" := vq ]}) (Some {[ "q" := vr ]}) ≠ None ∧
  ∃ m1 m2 : SpecializationMap,
    Some ({[ "p" := vq ]} : SpecializationMap) = Some m1 ∧
    Some ({[ "q" := vr ]} : SpecializationMap) = Some m2 ∧
    InferenceRule._merge_specialization_maps
      (Some {[ "p" := vq ]}) (Some {[ "q" := vr ]}) = Some (m1 ∪ m2) ∧
    ∀ k, (m1 ∪ m2) !! k =
         match m1 !! k with Some v => Some v | None => m2 !! k end.
Proof.
  assert (InferenceRule._merge_specialization_maps
            (Some {[ "p" := vq ]}) (Some {[ "q" := vr ]}) ≠ None) as H
    by by vm_compute.
  split; [done|].
  apply (proj2 (merge_specialization_maps_spec
                  (Some {[ "p" := vq ]}) (Some {[ "q" := vr ]})) H).
Defined.

(** ** Specialization maps *)

Section specialization.
Import InferenceRule.

Lemma agree_union_r (m1 m2 : SpecializationMap) :
  agree m1 m2 → m2 ⊆ m1 ∪ m2.
Proof.
  intros Hag. apply map_subseteq_spec. intros k v Hk.
  rewrite lookup_union. destruct (m1 !! k) as [v1|] eqn:H1; simpl.
  - rewrite Hk, (Hag k v1 v H1 Hk). reflexivity.
  - rewrite Hk. reflexivity.
Qed.

Lemma agree_fmap (h : Formula → Formula) (m1 m2 : SpecializationMap) :
  agree m1 m2 → agree (h <$> m1) (h <$> m2).
Proof.
  intros Hag k v1 v2. rewrite !lookup_fmap.
  destruct (m1 !! k) as [w1|] eqn:H1, (m2 !! k) as [w2|] eqn:H2; simpl;
    try done.
  intros ? ?; simplify_eq. f_equal. by apply (Hag k).
Qed.

Lemma merge_fmap (h : Formula → Formula) sm1 sm2 r :
  _merge_specialization_maps sm1 sm2 = Some r →
  _merge_specialization_maps
    ((λ m : SpecializationMap, h <$> m) <$> sm1)
    ((λ m : SpecializationMap, h <$> m) <$> sm2)
  = Some (h <$> r).
Proof.
  intros (m1 & m2 & -> & -> & Hag & ->)%merge_is_Some. simpl option_fmap.
  apply merge_Some. split; [by apply agree_fmap|].
  apply map_fmap_union.
Qed.

(** The map computed for a formula and one of its specializations turns
    the former into the latter, and so does every map that extends it. *)
Lemma formula_specialization_map_sound general specialization m1 m :
  _formula_specialization_map general specialization = Some m1 →
  m1 ⊆ m →
  substitute_variables general m = specialization.
Proof.
  revert specialization m1 m.
  induction general as [c|x|o g1 IH1|o g1 IH1 g2 IH2];
    intros s m1 m Hm Hsub; simpl in *.
  - by case_decide.
  - simplify_eq. apply map_singleton_subseteq_l in Hsub. by rewrite Hsub.
  - destruct s as [| |o' s1|]; try done. case_decide; [|done]. subst o'.
    f_equal. by eapply IH1.
  - destruct s as [| | |o' s1 s2]; try done. case_decide; [|done]. subst o'.
    apply merge_is_Some in Hm as (a & b & Ha & Hb & Hag & ->).
    f_equal.
    + eapply IH1; [done|]. etrans; [apply map_union_subseteq_l|done].
    + eapply IH2; [done|]. etrans; [by apply agree_union_r|done].
Qed.

(** Substituting in a specialization keeps it a specialization. *)
Lemma formula_specialization_map_fmap general specialization m1 m0 :
  _formula_specialization_map general specialization = Some m1 →
  _formula_specialization_map general
    (substitute_variables specialization m0)
  = Some ((λ f, substitute_variables f m0) <$> m1).
Proof.
  revert specialization m1.
  induction general as [c|x|o g1 IH1|o g1 IH1 g2 IH2];
    intros s m1 Hm; simpl in *.
  - case_decide; [|done]. simplify_eq. simpl.
    rewrite decide_True by done. by rewrite fmap_empty.
  - simplify_eq. by rewrite map_fmap_singleton.
  - destruct s as [| |o' s1|]; try done. case_decide; [|done]. subst o'.
    simpl. rewrite decide_True by done. by apply IH1.
  - destruct s as [| | |o' s1 s2]; try done. case_decide; [|done]. subst o'.
    simpl. rewrite decide_True by done.
    pose proof Hm as (a & b & Ha & Hb & Hag & ->)%merge_is_Some.
    rewrite (IH1 _ _ Ha), (IH2 _ _ Hb).
    rewrite Ha, Hb in Hm.
    apply (merge_fmap (λ f, substitute_variables f m0)) in Hm. done.
Qed.

Lemma specialization_map_loop_None gs ss :
  specialization_map_loop gs ss None = None.
Proof.
  revert ss. induction gs as [|g gs IH]; intros [|s ss]; simpl; try done.
Qed.

Lemma specialization_map_loop_sound gs ss sm m :
  length gs = length ss →
  specialization_map_loop gs ss sm = Some m →
  (∃ m0, sm = Some m0 ∧ m0 ⊆ m) ∧
  map (λ f, substitute_variables f m) gs = ss.
Proof.
  revert ss sm. induction gs as [|g gs IH]; intros [|s ss] sm Hlen Hm;
    simpl in *; try done.
  - subst sm. eauto.
  - destruct (_merge_specialization_maps sm (_formula_specialization_map g s))
      as [r|] eqn:Hr; [|by rewrite specialization_map_loop_None in Hm].
    apply IH in Hm as [(m0 & ? & Hsub) ->]; [|lia]. simplify_eq.
    apply merge_is_Some in Hr as (a & b & -> & Hb & Hag & ->).
    split.
    + exists a. split; [done|]. etrans; [apply map_union_subseteq_l|done].
    + f_equal. eapply formula_specialization_map_sound; [done|].
      etrans; [by apply agree_union_r|done].
Qed.

Lemma specialization_map_loop_fmap gs ss sm m m0 :
  specialization_map_loop gs ss sm = Some m →
  specialization_map_loop gs
    (map (λ f, substitute_variables f m0) ss)
    ((λ m : SpecializationMap, (λ f, substitute_variables f m0) <$> m) <$> sm)
  = Some ((λ f, substitute_variables f m0) <$> m).
Proof.
  revert ss sm. induction gs as [|g gs IH]; intros [|s ss] sm Hm;
    simpl in *; try by subst sm.
  destruct (_merge_specialization_maps sm (_formula_specialization_map g s))
    as [r|] eqn:Hr; [|by rewrite specialization_map_loop_None in Hm].
  pose proof Hr as (a & b & -> & Hb & Hag & ->)%merge_is_Some.
  rewrite (formula_specialization_map_fmap _ _ _ m0 Hb).
  rewrite Hb in Hr.
  apply (merge_fmap (λ f, substitute_variables f m0)) in Hr.
  simpl in Hr. simpl. rewrite Hr. by apply (IH ss (Some (a ∪ b))).
Qed.

Lemma specialization_map_sound R S m :
  specialization_map R S = Some m → specialize R m = S.
Proof.
  unfold specialization_map, specialize. intros Hm.
  destruct (length (assumptions R) =? length (assumptions S))%nat eqn:Hlen;
    [|done].
  apply Nat.eqb_eq in Hlen. simpl in Hm.
  apply specialization_map_loop_sound in Hm as [(m0 & Hc & Hsub) Has];
    [|done].
  destruct S as [ss s]. simpl in *. f_equal; [done|].
  by eapply formula_specialization_map_sound.
Qed.

Lemma specialization_map_fmap R S m m0 :
  specialization_map R S = Some m →
  specialization_map R (specialize S m0)
  = Some ((λ f, substitute_variables f m0) <$> m).
Proof.
  unfold specialization_map, specialize. simpl. intros Hm.
  rewrite length_map.
  destruct (length (assumptions R) =? length (assumptions S))%nat eqn:Hlen;
    [|done].
  simpl in *.
  destruct (_formula_specialization_map (conclusion R) (conclusion S))
    as [c|] eqn:Hc; [|by rewrite specialization_map_loop_None in Hm].
  rewrite (formula_specialization_map_fmap _ _ _ m0 Hc).
  by apply (specialization_map_loop_fmap _ _ (Some c)).
Qed.

Lemma is_specialization_of_specialize S R m0 :
  is_specialization_of S R = true →
  is_specialization_of (specialize S m0) R = true.
Proof.
  unfold is_specialization_of. rewrite !bool_decide_eq_true.
  intros HS. destruct (specialization_map R S) as [m|] eqn:Hm; [|done].
  by rewrite (specialization_map_fmap _ _ _ m0 Hm).
Qed.

End specialization.

(** C2: when [R.specialization_map(S)] returns a map, specializing [R] with
    that map gives [S]. *)
Theorem specialize_specialization_map (R S : InferenceRule)
    (m : SpecializationMap) :
  InferenceRule.specialization_map R S = Some m →
  InferenceRule.specialize R m = S.
Proof. apply specialization_map_sound. Qed.

(** ** The error monad *)

Lemma rbind_Ok {A B} (r : result A) (k : A → result B) (b : B) :
  rbind r k = Ok b ↔ ∃ a, r = Ok a ∧ k a = Ok b.
Proof. destruct r; simpl; naive_solver. Qed.

Lemma assert_Ok (b : bool) (u : unit) : assert b = Ok u ↔ b = true.
Proof. destruct b, u; simpl; naive_solver. Qed.

Lemma rmap_Ok {A B} (f : A → result B) (xs : list A) (ys : list B) :
  rmap f xs = Ok ys ↔ Forall2 (λ x y, f x = Ok y) xs ys.
Proof.
  revert ys. induction xs as [|x xs IH]; intros ys; simpl.
  - split; [intros; simplify_eq; constructor|by inversion 1].
  - rewrite rbind_Ok. split.
    + intros (y & Hy & (ys' & Hys & ?)%rbind_Ok). simplify_eq.
      constructor; [done|by apply IH].
    + inversion 1 as [|? y ? ys' Hy Hys]; subst. exists y. split; [done|].
      apply rbind_Ok. exists ys'. split; [by apply IH|done].
Qed.

Lemma specialize_specialization_map_witness :
  InferenceRule.specialization_map or_intro
    (mkInferenceRule [or_ vr vr] (or_ (or_ vr vr) vq))
  = Some {[ "p" := or_ vr vr; "q" := vq ]} ∧
  InferenceRule.specialize or_intro {[ "p" := or_ vr vr; "q" := vq ]}
  = mkInferenceRule [or_ vr vr] (or_ (or_ vr vr) vq).
Proof.
  assert (InferenceRule.specialization_map or_intro
            (mkInferenceRule [or_ vr vr] (or_ (or_ vr vr) vq))
          = Some {[ "p" := or_ vr vr; "q" := vq ]}) as H by by vm_compute.
  split; [done|]. by apply specialize_specialization_map.
Defined.

(** ** Indexing *)

Lemma py_index_Ok {A} (t : list A) (i : Z) (x : A) :
  py_index t i = Ok x ↔ ∃ k, position (length t) i = Some k ∧ t !! k = Some x.
Proof.
  unfold py_index, position.
  destruct (Z.ltb_spec i 0) as [Hi|Hi].
  - rewrite decide_False by lia.
    destruct (Z.ltb_spec (i + Z.of_nat (length t)) 0) as [Hk|Hk].
    + rewrite decide_False by lia. naive_solver.
    + rewrite decide_True by lia.
      destruct (t !! Z.to_nat (i + Z.of_nat (length t))) eqn:Ht; naive_solver.
  - destruct (Z.ltb_spec i 0) as [|_]; [lia|].
    destruct (decide (0 ≤ i < Z.of_nat (length t))) as [Hr|Hr].
    + destruct (t !! Z.to_nat i) eqn:Ht; naive_solver.
    + rewrite decide_False by lia.
      rewrite (lookup_ge_None_2 t (Z.to_nat i)) by lia. naive_solver.
Qed.

Lemma py_index_nat {A} (t : list A) (k : nat) (x : A) :
  py_index t (Z.of_nat k) = Ok x ↔ t !! k = Some x.
Proof.
  rewrite py_index_Ok. unfold position. split.
  - intros (k' & Hk & Hx). case_decide; [|case_decide; [lia|done]].
    simplify_eq. by rewrite Nat2Z.id in Hx.
  - intros Hx. exists k. split; [|done].
    apply lookup_lt_Some in Hx. rewrite decide_True by lia.
    by rewrite Nat2Z.id.
Qed.

Lemma py_index_map {A B} (h : A → B) (t : list A) (i : Z) (x : A) :
  py_index t i = Ok x → py_index (map h t) i = Ok (h x).
Proof.
  rewrite !py_index_Ok. intros (k & Hk & Hx). exists k.
  rewrite length_map. split; [done|].
  change (map h t) with (h <$> t). by rewrite list_lookup_fmap, Hx.
Qed.

(** ** Validity of lines and of proofs *)

Section validity.
Import Proof.

Lemma formulas_at_functional lines js fs fs' :
  formulas_at lines js fs → formulas_at lines js fs' → fs = fs'.
Proof.
  intros H. revert fs'. induction H as [|j g js fs (l & Hl & <-) _ IH];
    intros fs'; inversion 1 as [|? g' ? fs'' (l' & Hl' & <-) Hfs']; subst;
    [done|].
  f_equal; [congruence|by apply IH].
Qed.

Lemma rule_for_line_assumption self i f :
  lines self !! i = Some (AssumptionLine f) →
  rule_for_line self i = Ok None.
Proof.
  intros Hi. unfold rule_for_line.
  pose proof (lookup_lt_Some _ _ _ Hi) as Hlt.
  apply Nat.ltb_lt in Hlt. rewrite Hlt, Hi. done.
Qed.

Lemma rule_for_line_derivation self i f rule js r :
  lines self !! i = Some (DerivationLine f rule js) →
  rule_for_line self i = Ok r ↔
  ∃ fs, r = Some (mkInferenceRule fs f) ∧ formulas_at (lines self) js fs.
Proof.
  intros Hi. unfold rule_for_line, formulas_at.
  pose proof (lookup_lt_Some _ _ _ Hi) as Hlt.
  apply Nat.ltb_lt in Hlt. rewrite Hlt, Hi. simpl.
  rewrite rbind_Ok. split.
  - intros (fs & Hfs & ?). simplify_eq. exists fs. split; [done|].
    apply rmap_Ok in Hfs. eapply Forall2_impl; [done|]. simpl.
    intros j g (l & Hl & ?)%rbind_Ok. simplify_eq. eauto.
  - intros (fs & -> & Hfs). exists fs. split; [|done].
    apply rmap_Ok. eapply Forall2_impl; [done|]. simpl.
    intros j g (l & Hl & <-). by rewrite Hl.
Qed.

Lemma existsb_geb (i : nat) (js : list Z) :
  existsb (λ j, j >=? Z.of_nat i) js = false ↔
  Forall (λ j, j < Z.of_nat i) js.
Proof.
  induction js as [|j js IH]; simpl.
  - split; [constructor|done].
  - rewrite orb_false_iff, IH, Forall_cons, Z.geb_leb, Z.leb_gt. done.
Qed.

Lemma is_line_valid_assumption self i f :
  lines self !! i = Some (AssumptionLine f) →
  is_line_valid self i = Ok (bool_decide (f ∈ assumptions (statement self))).
Proof.
  intros Hi. unfold is_line_valid.
  rewrite (rule_for_line_assumption _ _ _ Hi).
  pose proof (lookup_lt_Some _ _ _ Hi) as Hlt.
  apply Nat.ltb_lt in Hlt. rewrite Hlt, Hi. done.
Qed.

Lemma is_line_valid_derivation self i f rule js :
  lines self !! i = Some (DerivationLine f rule js) →
  is_line_valid self i = Ok true ↔
  Forall (λ j, j < Z.of_nat i) js ∧ rule ∈ rules self ∧
  ∃ fs, formulas_at (lines self) js fs ∧
        InferenceRule.is_specialization_of (mkInferenceRule fs f) rule = true.
Proof.
  intros Hi. unfold is_line_valid.
  pose proof (lookup_lt_Some _ _ _ Hi) as Hlt.
  apply Nat.ltb_lt in Hlt. rewrite Hlt. simpl.
  destruct (rule_for_line self i) as [r|e] eqn:Hr; simpl.
  - apply (rule_for_line_derivation _ _ _ _ _ _ Hi) in Hr as (fs & -> & Hfs).
    rewrite Hi. rewrite <- existsb_geb.
    destruct (existsb _ js); [split; [done|by intros [? _]]|].
    case_bool_decide as Hin; [|split; [done|by intros (_ & ? & _)]].
    split.
    + intros ?. simplify_eq. split_and!; [done..|]. eauto.
    + intros (_ & _ & fs' & Hfs' & Hsp).
      by rewrite (formulas_at_functional _ _ _ _ Hfs Hfs'), Hsp.
  - split; [done|]. intros (_ & _ & fs & Hfs & _).
    assert (rule_for_line self i = Ok (Some (mkInferenceRule fs f))) as Hr'.
    { apply (rule_for_line_derivation _ _ _ _ _ _ Hi). eauto. }
    congruence.
Qed.

Lemma is_valid_loop_true self line_numbers :
  is_valid_loop self line_numbers = Ok true ↔
  Forall (λ i, is_line_valid self i = Ok true) line_numbers.
Proof.
  induction line_numbers as [|i line_numbers IH]; simpl.
  - split; [constructor|done].
  - rewrite Forall_cons, <- IH.
    destruct (is_line_valid self i) as [[]|]; simpl; naive_solver.
Qed.

Lemma is_valid_true self :
  is_valid self = Ok true ↔
  (∀ i, (i < length (lines self))%nat → is_line_valid self i = Ok true) ∧
  ∃ line, last (lines self) = Some line ∧
          Line.formula line = conclusion (statement self).
Proof.
  unfold is_valid. rewrite last_lookup.
  destruct (lines self) as [|l0 ls] eqn:Hls; simpl length.
  { simpl. split; [done|]. by intros [_ (? & ? & _)]. }
  change (S (length ls) =? 0)%nat with false. cbv iota.
  replace (S (length ls) - 1)%nat with (length ls) by lia.
  change (Nat.pred (S (length ls))) with (length ls).
  assert ((∀ i, (i < S (length ls))%nat → is_line_valid self i = Ok true) ↔
          is_valid_loop self (seq 0 (S (length ls))) = Ok true) as ->.
  { rewrite is_valid_loop_true, Forall_forall. split.
    - intros H i Hi%elem_of_seq. apply H. lia.
    - intros H i Hi. apply H, elem_of_seq. lia. }
  destruct (is_valid_loop self (seq 0 (S (length ls)))) as [[]|]; simpl;
    [|naive_solver..].
  destruct ((l0 :: ls) !! length ls) as [line|] eqn:Hl.
  - case_bool_decide; naive_solver.
  - apply lookup_ge_None in Hl. simpl in Hl. lia.
Qed.

Lemma is_valid_empty self : lines self = [] → is_valid self = Ok false.
Proof. intros H. unfold is_valid. by rewrite H. Qed.

End validity.

(** C5: an assumption line is valid exactly when its formula is one of the
    assumptions of the statement; a derivation line is valid exactly when
    every justification number is smaller than the number of the line, the
    declared rule is an allowed rule, and the rule that [rule_for_line]
    reconstructs is a specialization of the declared rule. *)
Theorem is_line_valid_spec (self : Proof) (line_number : nat) (line : Line) :
  lines self !! line_number = Some line →
  match line with
  | AssumptionLine f =>
      Proof.is_line_valid self line_number = Ok true ↔
      f ∈ assumptions (statement self)
  | DerivationLine f rule js =>
      Proof.is_line_valid self line_number = Ok true ↔
      Forall (λ j, j < Z.of_nat line_number) js ∧
      rule ∈ rules self ∧
      ∃ r, Proof.rule_for_line self line_number = Ok (Some r) ∧
           InferenceRule.is_specialization_of r rule = true
  end.
Proof.
  intros Hi. destruct line as [f|f rule js].
  - rewrite (is_line_valid_assumption _ _ _ Hi).
    split; [intros ?; simplify_eq; by eapply bool_decide_eq_true_1|].
    intros ?. f_equal. by apply bool_decide_eq_true_2.
  - rewrite (is_line_valid_derivation _ _ _ _ _ Hi). split.
    + intros (Hjs & Hin & fs & Hfs & Hsp). split_and!; try done.
      exists (mkInferenceRule fs f). split; [|done].
      apply (rule_for_line_derivation _ _ _ _ _ _ Hi). eauto.
    + intros (Hjs & Hin & r & Hr & Hsp). split_and!; try done.
      apply (rule_for_line_derivation _ _ _ _ _ _ Hi) in Hr as (fs & ? & Hfs).
      simplify_eq. eauto.
Qed.

Lemma is_line_valid_spec_witness :
  lines quadruple_proof !! 2%nat
  = Some (DerivationLine (or_ (or_ vr vr) (or_ vr vr)) double [1]) ∧
  (Proof.is_line_valid quadruple_proof 2 = Ok true ↔
   Forall (λ j, j < Z.of_nat 2) [1] ∧
   double ∈ rules quadruple_proof ∧
   ∃ r0, Proof.rule_for_line quadruple_proof 2 = Ok (Some r0) ∧
         InferenceRule.is_specialization_of r0 double = true).
Proof.
  assert (lines quadruple_proof !! 2%nat
          = Some (DerivationLine (or_ (or_ vr vr) (or_ vr vr)) double [1])) as H
    by reflexivity.
  split; [done|]. apply (is_line_valid_spec quadruple_proof 2 _ H).
Defined.

(** C4: a proof whose only line cites line number 3 has a justification
    number that is not smaller than the number of the line; [is_valid] does
    not return [False] on it, it raises [IndexError], because
    [is_line_valid] reconstructs the rule of the line, which reads the cited
    lines, before it compares the justification numbers with the number of
    the line. *)
Theorem is_valid_beyond_raises :
  lines beyond_proof = [DerivationLine vq repeat_rule [3]] ∧
  Proof.is_line_valid beyond_proof 0 = Err IndexError ∧
  Proof.is_valid beyond_proof = Err IndexError.
Proof. by vm_compute. Qed.

(** ** Specializing a proof *)

Section prove_specialization.
Import Proof.

Lemma formula_specialize_line m line :
  Line.formula (specialize_line m line)
  = substitute_variables (Line.formula line) m.
Proof. by destruct line. Qed.

Lemma formulas_at_specialize m lines js fs :
  formulas_at lines js fs →
  formulas_at (map (specialize_line m) lines) js
              (map (λ f, substitute_variables f m) fs).
Proof.
  unfold formulas_at. induction 1 as [|j g js fs (l & Hl & <-) _ IH]; simpl;
    constructor; [|done].
  exists (specialize_line m l). split; [by apply py_index_map|].
  apply formula_specialize_line.
Qed.

Lemma specialize_is_line_valid self m S i :
  InferenceRule.specialize (statement self) m = S →
  is_line_valid self i = Ok true →
  (i < length (lines self))%nat →
  is_line_valid
    (mkProof S (rules self) (map (specialize_line m) (lines self))) i
  = Ok true.
Proof.
  intros HS Hv Hi. apply lookup_lt_is_Some_2 in Hi as [line Hi].
  set (self' := mkProof S (rules self) (map (specialize_line m) (lines self))).
  assert (lines self' !! i = Some (specialize_line m line)) as Hi'.
  { simpl. change (map ?h ?l) with (h <$> l).
    by rewrite list_lookup_fmap, Hi. }
  destruct line as [f|f rule js].
  - rewrite (is_line_valid_assumption _ _ _ Hi) in Hv.
    rewrite (is_line_valid_assumption _ _ _ Hi'). f_equal.
    injection Hv as Hv. apply bool_decide_eq_true_1 in Hv.
    apply bool_decide_eq_true_2. simpl. subst S. simpl.
    change (map ?h ?l) with (h <$> l).
    by apply (list_elem_of_fmap_2 (λ g, substitute_variables g m)).
  - pose proof (proj1 (is_line_valid_derivation _ _ _ _ _ Hi) Hv)
      as (Hjs & Hin & fs & Hfs & Hsp).
    apply (is_line_valid_derivation _ _ _ _ _ Hi'). simpl.
    split_and!; [done..|].
    exists (map (λ f, substitute_variables f m) fs).
    split; [by apply formulas_at_specialize|].
    by apply (is_specialization_of_specialize _ _ m) in Hsp.
Qed.

Lemma is_valid_specialize self m S :
  InferenceRule.specialize (statement self) m = S →
  is_valid self = Ok true →
  is_valid (mkProof S (rules self) (map (specialize_line m) (lines self)))
  = Ok true.
Proof.
  intros HS (Hlines & line & Hlast & Hconcl)%is_valid_true.
  apply is_valid_true. simpl. split.
  - intros i Hi. rewrite length_map in Hi.
    by apply specialize_is_line_valid; [|apply Hlines|].
  - exists (specialize_line m line). split.
    + change (map ?h ?l) with (h <$> l). by rewrite fmap_last, Hlast.
    + rewrite formula_specialize_line, Hconcl. by subst S.
Qed.

End prove_specialization.

(** C1: for a valid proof and a specialization [S] of its statement,
    [prove_specialization] returns a valid proof of [S] with the same allowed
    rules and as many lines, each line keeping its rule and justification
    numbers, with the formula of the original line rewritten under the map
    that [specialization_map] computes for the statement and [S]. *)
Theorem prove_specialization_spec (proof : Proof)
    (specialization : InferenceRule) :
  Proof.is_valid proof = Ok true →
  InferenceRule.is_specialization_of specialization (statement proof) = true →
  ∃ result m,
    prove_specialization proof specialization = Ok result ∧
    InferenceRule.specialization_map (statement proof) specialization = Some m ∧
    Proof.is_valid result = Ok true ∧
    statement result = specialization ∧
    rules result = rules proof ∧
    length (lines result) = length (lines proof) ∧
    ∀ i line, lines proof !! i = Some line →
      ∃ line', lines result !! i = Some line' ∧
        Line.rule line' = Line.rule line ∧
        Line.assumptions line' = Line.assumptions line ∧
        Line.formula line' = substitute_variables (Line.formula line) m.
Proof.
  intros Hv Hsp. unfold prove_specialization, assert_valid.
  rewrite Hv, Hsp. simpl.
  unfold InferenceRule.is_specialization_of in Hsp.
  apply bool_decide_eq_true_1 in Hsp.
  destruct (InferenceRule.specialization_map (statement proof) specialization)
    as [m|] eqn:Hm; [|done].
  eexists _, m. split; [reflexivity|]. split; [done|].
  pose proof (specialization_map_sound _ _ _ Hm) as HS.
  split; [by apply (is_valid_specialize proof m)|].
  simpl. split_and!; [done..|by rewrite length_map|].
  intros i line Hi. exists (specialize_line m line).
  change (map ?h ?l) with (h <$> l). rewrite list_lookup_fmap, Hi.
  split; [done|]. by destruct line.
Qed.

Lemma prove_specialization_spec_witness :
  ∃ result m,
    prove_specialization double_proof (mkInferenceRule [vr] (or_ vr vr))
    = Ok result ∧
    InferenceRule.specialization_map (statement double_proof)
      (mkInferenceRule [vr] (or_ vr vr)) = Some m ∧
    Proof.is_valid result = Ok true ∧
    statement result = mkInferenceRule [vr] (or_ vr vr) ∧
    rules result = rules double_proof ∧
    length (lines result) = length (lines double_proof) ∧
    ∀ i line, lines double_proof !! i = Some line →
      ∃ line', lines result !! i = Some line' ∧
        Line.rule line' = Line.rule line ∧
        Line.assumptions line' = Line.assumptions line ∧
        Line.formula line' = substitute_variables (Line.formula line) m.
Proof.
  apply prove_specialization_spec; by vm_compute.
Defined.

(** ** The shape of the proof that one inlining step builds *)

Section inline_once.

Lemma splice_loop_shape ps ma i pl st st' :
  splice_loop ps ma i pl st = Ok st' →
  ∃ D, new_lines st' = (new_lines st ++ D)%list ∧
       assumptions_count st'
       = assumptions_count st
         + Z.of_nat (length (filter (λ l, Line.is_assumption l = true) pl)) ∧
       Forall2 renumbered D (filter (λ l, is_derivation l = true) pl).
Proof.
  revert i st. induction pl as [|line pl IH]; intros i st Hst; simpl in Hst.
  - simplify_eq. exists []. rewrite app_nil_r. simpl.
    split_and!; [done|lia|constructor].
  - apply rbind_Ok in Hst as (st1 & H1 & Hst).
    apply IH in Hst as (D & HD & Hc & HF).
    destruct line as [f|f r js]; simpl in H1.
    + apply rbind_Ok in H1 as (index & _ & H1).
      apply rbind_Ok in H1 as (s & _ & H1). simplify_eq. simpl in *.
      exists D.
      change (filter (λ l, Line.is_assumption l = true) (AssumptionLine f :: pl))
        with (AssumptionLine f :: filter (λ l, Line.is_assumption l = true) pl).
      change (filter (λ l, is_derivation l = true) (AssumptionLine f :: pl))
        with (filter (λ l, is_derivation l = true) pl).
      simpl length.
      split_and!; [done|lia|done].
    + apply rbind_Ok in H1 as (js' & _ & H1). simplify_eq. simpl in *.
      exists (DerivationLine f r js' :: D).
      change (filter (λ l, Line.is_assumption l = true)
                (DerivationLine f r js :: pl))
        with (filter (λ l, Line.is_assumption l = true) pl).
      change (filter (λ l, is_derivation l = true) (DerivationLine f r js :: pl))
        with (DerivationLine f r js
                :: filter (λ l, is_derivation l = true) pl).
      split_and!; [by rewrite HD, <- app_assoc|lia|].
      constructor; [|done]. by exists f, r, js, js'.
Qed.

Lemma length_filter_split (pl : list Line) :
  (length (filter (λ l, Line.is_assumption l = true) pl)
   + length (filter (λ l, is_derivation l = true) pl))%nat = length pl.
Proof.
  induction pl as [|l pl IH]; [done|]. unfold is_derivation in *.
  destruct (Line.is_assumption l) eqn:Hl.
  - rewrite filter_cons_True by done.
    rewrite filter_cons_False by (rewrite Hl; done). simpl. lia.
  - rewrite filter_cons_False by (rewrite Hl; done).
    rewrite filter_cons_True by (by rewrite Hl). simpl. lia.
Qed.

Lemma inline_proof_once_inv main_proof line_number lemma_proof result :
  _inline_proof_once main_proof line_number lemma_proof = Ok result →
  ∃ f js target partial_proof st,
    Proof.is_valid main_proof = Ok true ∧
    lines main_proof !! line_number
    = Some (DerivationLine f (statement lemma_proof) js) ∧
    Proof.is_valid lemma_proof = Ok true ∧
    Proof.rule_for_line main_proof line_number = Ok (Some target) ∧
    prove_specialization lemma_proof target = Ok partial_proof ∧
    splice_loop (statement partial_proof) js 0 (lines partial_proof)
      (mkSplice (take line_number (lines main_proof)) 0 ∅) = Ok st ∧
    result =
      mkProof (statement main_proof) (rules main_proof ∪ rules lemma_proof)
        (new_lines st ++
         map (shift_line line_number
                (Z.of_nat (length (lines partial_proof))
                 - assumptions_count st - 1))
             (drop (S line_number) (lines main_proof)))%list.
Proof.
  unfold _inline_proof_once, assert_valid. intros H.
  apply rbind_Ok in H as ([] & (v & Hv & ->%assert_Ok)%rbind_Ok & H).
  apply rbind_Ok in H as ([] & _ & H).
  apply rbind_Ok in H as (main_line & Hl%py_index_nat & H).
  apply rbind_Ok in H as ([] & Hr%assert_Ok%bool_decide_eq_true_1 & H).
  apply rbind_Ok in H as ([] & (v' & Hv' & ->%assert_Ok)%rbind_Ok & H).
  apply rbind_Ok in H as (target & Ht & H).
  destruct target as [target|]; [|done].
  destruct main_line as [f|f r js]; [done|]. simpl in Hr, H. simplify_eq.
  apply rbind_Ok in H as (partial_proof & Hp & H).
  apply rbind_Ok in H as (st & Hst & H). simplify_eq.
  eauto 15.
Qed.

End inline_once.

Section inline_steps.

Lemma prove_specialization_inv proof specialization result :
  prove_specialization proof specialization = Ok result →
  ∃ m, InferenceRule.specialization_map (statement proof) specialization
       = Some m ∧
       Proof.is_valid proof = Ok true ∧
       result = mkProof specialization (rules proof)
                  (map (specialize_line m) (lines proof)).
Proof.
  unfold prove_specialization, assert_valid. intros H.
  apply rbind_Ok in H as ([] & (v & Hv & ->%assert_Ok)%rbind_Ok & H).
  apply rbind_Ok in H as ([] & _ & H).
  destruct (InferenceRule.specialization_map _ _) as [m|]; [|done].
  simplify_eq. eauto.
Qed.

Lemma inline_proof_once_lines main_proof line_number lemma_proof result :
  _inline_proof_once main_proof line_number lemma_proof = Ok result →
  ∃ f js target partial_proof D,
    lines main_proof !! line_number
    = Some (DerivationLine f (statement lemma_proof) js) ∧
    Proof.rule_for_line main_proof line_number = Ok (Some target) ∧
    prove_specialization lemma_proof target = Ok partial_proof ∧
    Forall2 renumbered D
      (filter (λ l, is_derivation l = true) (lines partial_proof)) ∧
    lines result =
      (take line_number (lines main_proof) ++ D ++
       map (shift_line line_number (Z.of_nat (length D) - 1))
           (drop (S line_number) (lines main_proof)))%list.
Proof.
  intros (f & js & target & partial_proof & st & Hv & Hl & Hv' & Ht & Hp & Hst
          & ->)%inline_proof_once_inv.
  apply splice_loop_shape in Hst as (D & HD & Hc & HF). simpl in *.
  exists f, js, target, partial_proof, D. split_and!; try done.
  rewrite HD, <- app_assoc. do 3 f_equal.
  pose proof (length_filter_split (lines partial_proof)) as Hsplit.
  apply Forall2_length in HF. f_equal. lia.
Qed.

Lemma uses_lemma_renumbered L new old :
  renumbered new old → uses_lemma L new = uses_lemma L old.
Proof. by intros (f & r & js & js' & -> & ->). Qed.

Lemma uses_lemma_shift_line L n offset line :
  uses_lemma L (shift_line n offset line) = uses_lemma L line.
Proof. by destruct line. Qed.

Lemma uses_lemma_specialize_line L m line :
  uses_lemma L (specialize_line m line) = uses_lemma L line.
Proof. by destruct line. Qed.

Lemma usage_count_app L l1 l2 :
  usage_count L (l1 ++ l2) = (usage_count L l1 + usage_count L l2)%nat.
Proof. unfold usage_count. by rewrite filter_app, length_app. Qed.

Lemma usage_count_cons L line l :
  usage_count L (line :: l)
  = ((if uses_lemma L line then 1 else 0) + usage_count L l)%nat.
Proof.
  unfold usage_count. destruct (uses_lemma L line) eqn:H.
  - by rewrite filter_cons_True.
  - rewrite filter_cons_False; [done|]. by rewrite H.
Qed.

Lemma usage_count_zero L l :
  usage_count L l = 0%nat ↔ Forall (λ line, uses_lemma L line = false) l.
Proof.
  induction l as [|line l IH]; [by split; [constructor|]|].
  rewrite usage_count_cons, Forall_cons, <- IH.
  destruct (uses_lemma L line); split; try lia; naive_solver.
Qed.

Lemma usage_count_map L (h : Line → Line) l :
  (∀ line, uses_lemma L (h line) = uses_lemma L line) →
  usage_count L (map h l) = usage_count L l.
Proof.
  intros Hh. induction l as [|line l IH]; [done|]. simpl map.
  by rewrite !usage_count_cons, Hh, IH.
Qed.

Lemma usage_count_renumbered L D pl :
  Forall2 renumbered D (filter (λ l, is_derivation l = true) pl) →
  Forall (λ line, uses_lemma L line = false) pl →
  usage_count L D = 0%nat.
Proof.
  intros HF Hpl. apply usage_count_zero.
  assert (Forall (λ line, uses_lemma L line = false)
                 (filter (λ l, is_derivation l = true) pl)) as Hpl'.
  { apply Forall_forall. intros l [_ Hl]%list_elem_of_filter.
    by eapply Forall_forall in Hpl. }
  revert HF Hpl'. generalize (filter (λ l, is_derivation l = true) pl).
  clear Hpl. intros ol HF. induction HF as [|d o D ol' Hdo _ IH];
    intros Hol; [constructor|].
  apply Forall_cons in Hol as [Ho Hol]. constructor; [|by apply IH].
  by rewrite (uses_lemma_renumbered _ _ _ Hdo).
Qed.

(** One inlining step removes one usage of the lemma when no line of the
    lemma proof uses the lemma. *)
Lemma inline_proof_once_usage main_proof line_number lemma_proof result :
  Forall (λ line, uses_lemma (statement lemma_proof) line = false)
         (lines lemma_proof) →
  _inline_proof_once main_proof line_number lemma_proof = Ok result →
  (usage_count (statement lemma_proof) (lines result) + 1)%nat
  = usage_count (statement lemma_proof) (lines main_proof).
Proof.
  intros Hfree (f & js & target & partial_proof & D & Hl & Ht & Hp & HF & ->)
    %inline_proof_once_lines.
  apply prove_specialization_inv in Hp as (m & _ & _ & ->). simpl in HF.
  simpl lines.
  assert (usage_count (statement lemma_proof) (lines main_proof)
          = usage_count (statement lemma_proof)
              (take line_number (lines main_proof)
               ++ DerivationLine f (statement lemma_proof) js
               :: drop (S line_number) (lines main_proof))) as ->
    by (by rewrite take_drop_middle).
  rewrite !usage_count_app, usage_count_cons.
  rewrite (usage_count_map _ (shift_line _ _)) by apply uses_lemma_shift_line.
  rewrite (usage_count_renumbered _ _ _ HF).
  - assert (uses_lemma (statement lemma_proof)
              (DerivationLine f (statement lemma_proof) js) = true) as ->.
    { unfold uses_lemma. simpl. by rewrite bool_decide_eq_true_2. }
    lia.
  - apply Forall_forall. intros l (l0 & -> & Hl0)%list_elem_of_fmap.
    rewrite uses_lemma_specialize_line. by eapply Forall_forall in Hfree.
Qed.

End inline_steps.

(** C8: in the proof that [_inline_proof_once] returns, the lines before
    [line_number] are those of the main proof; a line of the main proof after
    [line_number] reappears [offset] positions later, an assumption line
    unchanged and a derivation line with its formula and rule, every
    justification number [j] below [line_number] kept and every other one
    replaced by [j + offset], where [offset] is the number of derivation
    lines of the specialized lemma proof minus one. *)
Theorem inline_proof_once_frame (main_proof : Proof) (line_number : nat)
    (lemma_proof result : Proof) :
  _inline_proof_once main_proof line_number lemma_proof = Ok result →
  ∃ target partial_proof,
    Proof.rule_for_line main_proof line_number = Ok (Some target) ∧
    prove_specialization lemma_proof target = Ok partial_proof ∧
    let offset :=
      Z.of_nat (length (filter (λ l, is_derivation l = true)
                               (lines partial_proof))) - 1 in
    (∀ i line, (i < line_number)%nat →
       lines main_proof !! i = Some line → lines result !! i = Some line) ∧
    (∀ i line, (line_number < i)%nat →
       lines main_proof !! i = Some line →
       (0 ≤ Z.of_nat i + offset)%Z ∧
       lines result !! Z.to_nat (Z.of_nat i + offset) = Some
         match line with
         | AssumptionLine _ => line
         | DerivationLine f r js =>
             DerivationLine f r
               (map (λ j, if decide (j < Z.of_nat line_number) then j
                          else j + offset) js)
         end).
Proof.
  intros (f & js & target & partial_proof & D & Hl & Ht & Hp & HF & Hlines)
    %inline_proof_once_lines.
  exists target, partial_proof. split; [done|]. split; [done|].
  apply Forall2_length in HF. rewrite <- HF. clear HF. simpl.
  pose proof (lookup_lt_Some _ _ _ Hl) as Hn.
  assert (length (take line_number (lines main_proof)) = line_number) as Htake
    by (rewrite length_take; lia).
  split.
  - intros i line Hi Hline. rewrite Hlines.
    rewrite lookup_app_l by lia. by rewrite lookup_take_lt.
  - intros i line Hi Hline. split; [lia|]. rewrite Hlines.
    replace (Z.to_nat (Z.of_nat i + (Z.of_nat (length D) - 1)))
      with (length (take line_number (lines main_proof))
            + (length D + (i - S line_number)))%nat by lia.
    rewrite lookup_app_r by lia. rewrite Nat.add_comm, Nat.add_sub.
    rewrite lookup_app_r by lia. rewrite Nat.add_comm, Nat.add_sub.
    change (map ?h ?l) with (h <$> l).
    rewrite list_lookup_fmap, lookup_drop.
    replace (S line_number + (i - S line_number))%nat with i by lia.
    rewrite Hline. simpl. f_equal. destruct line as [|g r js']; [done|].
    simpl. f_equal. apply map_ext. intros j.
    destruct (Z.ltb_spec j (Z.of_nat line_number)); by case_decide; try lia.
Qed.

Lemma inline_proof_once_frame_witness :
  ∃ result target partial_proof,
    _inline_proof_once quadruple_proof 1 double_proof = Ok result ∧
    Proof.rule_for_line quadruple_proof 1 = Ok (Some target) ∧
    prove_specialization double_proof target = Ok partial_proof ∧
    let offset :=
      Z.of_nat (length (filter (λ l, is_derivation l = true)
                               (lines partial_proof))) - 1 in
    (∀ i line, (i < 1)%nat →
       lines quadruple_proof !! i = Some line →
       lines result !! i = Some line) ∧
    (∀ i line, (1 < i)%nat →
       lines quadruple_proof !! i = Some line →
       (0 ≤ Z.of_nat i + offset)%Z ∧
       lines result !! Z.to_nat (Z.of_nat i + offset) = Some
         match line with
         | AssumptionLine _ => line
         | DerivationLine f r0 js =>
             DerivationLine f r0
               (map (λ j, if decide (j < Z.of_nat 1) then j
                          else j + offset) js)
         end).
Proof.
  assert (∃ result,
            _inline_proof_once quadruple_proof 1 double_proof = Ok result)
    as [result H] by (by eexists; vm_compute).
  destruct (inline_proof_once_frame quadruple_proof 1 double_proof result H)
    as (target & partial_proof & H').
  exists result, target, partial_proof. split; [exact H|exact H'].
Defined.

(** ** Proofs whose justification numbers are natural numbers *)

Section proper.

Lemma cites_formulas_at lines i js fs :
  (i ≤ length lines)%nat →
  cites lines i js fs ↔
  Forall (λ j, 0 ≤ j < Z.of_nat i) js ∧ formulas_at lines js fs.
Proof.
  intros Hi. unfold cites, formulas_at. split.
  - intros H. split.
    + apply Forall2_Forall_l with (Q := λ j, 0 ≤ j < Z.of_nat i) in H;
        [done|].
      apply Forall_forall. intros g _ j (k & l & -> & ? & _). lia.
    + eapply Forall2_impl; [done|]. simpl.
      intros j g (k & l & -> & Hk & Hl & Hg). exists l.
      by rewrite py_index_nat.
  - intros [Hjs H]. induction H as [|j g js fs (l & Hl & Hg) _ IH];
      [constructor|].
    apply Forall_cons in Hjs as [Hj Hjs]. constructor; [|by apply IH].
    exists (Z.to_nat j), l. rewrite Z2Nat.id by lia.
    split_and!; [done|lia| |done].
    apply py_index_nat. by rewrite Z2Nat.id by lia.
Qed.

Lemma cites_lt lines i js fs :
  cites lines i js fs → Forall (λ j, 0 ≤ j < Z.of_nat i) js.
Proof.
  intros H. apply Forall2_Forall_l with (Q := λ j, 0 ≤ j < Z.of_nat i) in H;
    [done|].
  apply Forall_forall. intros g _ j (k & l & -> & ? & _). lia.
Qed.

(** [cites] looks only at the lines before line [i]. *)
Lemma cites_agree lines lines' i js fs :
  (∀ k, (k < i)%nat → lines !! k = lines' !! k) →
  cites lines i js fs → cites lines' i js fs.
Proof.
  intros Hag H. eapply Forall2_impl; [done|]. simpl.
  intros j g (k & l & -> & Hk & Hl & Hg). exists k, l.
  rewrite <- Hag by done. done.
Qed.

Lemma cites_mono lines i i' js fs :
  (i ≤ i')%nat → cites lines i js fs → cites lines i' js fs.
Proof.
  intros Hi H. eapply Forall2_impl; [done|]. simpl.
  intros j g (k & l & -> & Hk & Hl & Hg). exists k, l.
  split_and!; try done. lia.
Qed.

Lemma cites_app lines extra i js fs :
  cites lines i js fs → cites (lines ++ extra) i js fs.
Proof.
  intros H. eapply Forall2_impl; [done|]. simpl.
  intros j g (k & l & -> & Hk & Hl & Hg). exists k, l.
  split_and!; try done. by apply lookup_app_l_Some.
Qed.

Lemma justified_valid self i line :
  lines self !! i = Some line →
  justified (statement self) (rules self) (lines self) i line ↔
  Proof.is_line_valid self i = Ok true ∧
  match line with
  | AssumptionLine _ => True
  | DerivationLine _ _ js => Forall (λ j, 0 ≤ j) js
  end.
Proof.
  intros Hi. pose proof (lookup_lt_Some _ _ _ Hi) as Hlen.
  destruct line as [f|f r js]; simpl.
  - rewrite (is_line_valid_assumption _ _ _ Hi). split.
    + intros H. split; [|done]. f_equal. by apply bool_decide_eq_true_2.
    + intros [H _]. injection H as H. by apply bool_decide_eq_true_1 in H.
  - rewrite (is_line_valid_derivation _ _ _ _ _ Hi). split.
    + intros (Hr & fs & Hc & Hsp).
      pose proof (cites_lt _ _ _ _ Hc) as Hlt.
      apply cites_formulas_at in Hc as [_ Hfs]; [|lia].
      split; [split_and!|].
      * eapply Forall_impl; [done|]. simpl. lia.
      * done.
      * eauto.
      * eapply Forall_impl; [done|]. simpl. lia.
    + intros [(Hlt & Hr & fs & Hfs & Hsp) Hnn]. split; [done|].
      exists fs. split; [|done]. apply cites_formulas_at; [lia|].
      split; [|done]. apply Forall_forall. intros j Hj.
      eapply Forall_forall in Hlt, Hnn; [|done..]. lia.
Qed.

Lemma proper_valid self :
  proper self ↔ Proof.is_valid self = Ok true ∧ nonneg (lines self).
Proof.
  unfold proper, nonneg. rewrite is_valid_true. split.
  - intros [Hj Hlast]. split; [split; [|done]|].
    + intros i Hi. apply lookup_lt_is_Some_2 in Hi as [line Hi].
      by apply (justified_valid _ _ _ Hi), Hj.
    + apply Forall_forall. intros line [i Hi]%list_elem_of_lookup.
      pose proof (proj1 (justified_valid _ _ _ Hi) (Hj _ _ Hi)) as [_ H].
      by destruct line.
  - intros [[Hv Hlast] Hnn]. split; [|done].
    intros i line Hi. apply (justified_valid _ _ _ Hi). split.
    + apply Hv. by eapply lookup_lt_Some.
    + eapply Forall_forall in Hnn; [|by eapply list_elem_of_lookup_2].
      by destruct line.
Qed.

End proper.

(** ** The lines that one inlining step splices in *)

Lemma tuple_index_elem_of {A} `{EqDecision A} (t : list A) (x : A) :
  x ∈ t → ∃ k, tuple_index t x = Ok k ∧ t !! k = Some x.
Proof.
  induction t as [|y t IH]; [by intros ?%elem_of_nil|].
  intros Hx. simpl. destruct (decide (y = x)) as [->|Hne].
  - by exists 0%nat.
  - apply elem_of_cons in Hx as [->|Hx]; [done|].
    destruct (IH Hx) as (k & -> & Hk). by exists (S k).
Qed.

Section splice.
Variables (stmt : InferenceRule) (allowed : gset InferenceRule).
Variables (base : list Line) (n : nat) (ma : list Z).
Variables (target : InferenceRule) (lemma_rules : gset InferenceRule).
Variable pl : list Line.
Hypothesis Hbase : length base = n.
Hypothesis Hma : cites base n ma (assumptions target).
Hypothesis Hpl :
  ∀ i line, pl !! i = Some line → justified target lemma_rules pl i line.
Hypothesis Hrules : lemma_rules ⊆ allowed.

Lemma justified_app lines extra i line :
  justified stmt allowed lines i line →
  justified stmt allowed (lines ++ extra) i line.
Proof.
  destruct line as [f|f r js]; [done|]. simpl.
  intros (Hr & fs & Hc & Hsp). split; [done|]. exists fs.
  split; [by apply cites_app|done].
Qed.

Lemma renumber_cites pre st js0 fs0 :
  (∀ k l, pre !! k = Some l → pl !! k = Some l) →
  splice_inv stmt allowed base n pre st →
  cites pl (length pre) js0 fs0 →
  ∃ js', rmap (dict_get (subs st)) js0 = Ok js' ∧
         cites (new_lines st) (length (new_lines st)) js' fs0.
Proof.
  intros Hpre [_ Hsubs] Hc.
  induction Hc as [|j g js0 fs0 (k & l & -> & Hk & Hl & Hg) _ IH].
  - exists []. split; [done|constructor].
  - destruct IH as (js' & Hjs' & Hc').
    apply lookup_lt_is_Some_2 in Hk as [l0 Hl0].
    pose proof (Hpre _ _ Hl0) as Hl0'. simplify_eq.
    destruct (Hsubs _ _ Hl0) as (s & l' & Hs & Hl' & Hf).
    exists (Z.of_nat s :: js'). split.
    + simpl. unfold dict_get at 1. rewrite Hs. simpl. by rewrite Hjs'.
    + constructor; [|done]. exists s, l'. split_and!; try done.
      by eapply lookup_lt_Some.
Qed.

Lemma splice_line_inv pre line st :
  (∀ k l, pre !! k = Some l → pl !! k = Some l) →
  pl !! length pre = Some line →
  splice_inv stmt allowed base n pre st →
  ∃ st', splice_line target ma st (length pre) line = Ok st' ∧
         splice_inv stmt allowed base n (pre ++ [line]) st'.
Proof.
  intros Hpre Hline Hinv. pose proof Hinv as [(D & HD & HDj) Hsubs].
  pose proof (Hpl _ _ Hline) as Hj.
  destruct line as [f|f r js0]; simpl in Hj.
  - apply tuple_index_elem_of in Hj as (idx & Hidx & Hf).
    destruct (Forall2_lookup_r _ _ _ _ _ Hma Hf)
      as (j & Hj & k & l & -> & Hk & Hl & Hg).
    eexists. split.
    { simpl. rewrite Hidx. simpl.
      rewrite (proj2 (py_index_nat ma idx (Z.of_nat k)) Hj). simpl.
      reflexivity. }
    split; simpl; [by eauto|].
    intros k0 l0 Hl0.
    apply lookup_app_Some in Hl0 as [Hl0|[Hlen Hl0]].
    + destruct (Hsubs _ _ Hl0) as (s & l' & Hs & Hl' & Hf').
      exists s, l'. split_and!; try done.
      rewrite lookup_insert_ne; [done|].
      apply lookup_lt_Some in Hl0. lia.
    + apply list_lookup_singleton_Some in Hl0 as [Hk0 <-].
      assert (k0 = length pre) as -> by lia.
      exists k, l. rewrite lookup_insert_eq. split_and!; try done.
      rewrite HD. by apply lookup_app_l_Some.
  - destruct Hj as (Hr & fs0 & Hc & Hsp).
    destruct (renumber_cites pre st js0 fs0 Hpre Hinv Hc)
      as (js' & Hjs' & Hc').
    eexists. split.
    { simpl. rewrite Hjs'. simpl. reflexivity. }
    split; simpl.
    + exists (D ++ [DerivationLine f r js']).
      split; [by rewrite HD, <- app_assoc|].
      intros k d Hd. apply lookup_app_Some in Hd as [Hd|[Hlen Hd]].
      * by apply justified_app, HDj.
      * apply list_lookup_singleton_Some in Hd as [Hk <-].
        simpl. split; [set_solver|]. exists fs0. split; [|done].
        apply cites_app.
        replace (n + k)%nat with (length (new_lines st)); [done|].
        rewrite HD, length_app. lia.
    + intros k0 l0 Hl0.
      apply lookup_app_Some in Hl0 as [Hl0|[Hlen Hl0]].
      * destruct (Hsubs _ _ Hl0) as (s & l' & Hs & Hl' & Hf').
        exists s, l'. split_and!; try done.
        -- rewrite lookup_insert_ne; [done|].
           apply lookup_lt_Some in Hl0. lia.
        -- by apply lookup_app_l_Some.
      * apply list_lookup_singleton_Some in Hl0 as [Hk0 <-].
        assert (k0 = length pre) as -> by lia.
        exists (length (new_lines st)), (DerivationLine f r js').
        rewrite lookup_insert_eq. split_and!; try done.
        by rewrite list_lookup_middle.
Qed.

Lemma splice_loop_inv suf pre st :
  pl = (pre ++ suf)%list →
  splice_inv stmt allowed base n pre st →
  ∃ st', splice_loop target ma (length pre) suf st = Ok st' ∧
         splice_inv stmt allowed base n pl st'.
Proof.
  revert pre st. induction suf as [|line suf IH]; intros pre st Hpl' Hinv.
  - rewrite app_nil_r in Hpl'. subst pre. by exists st.
  - destruct (splice_line_inv pre line st) as (st1 & Hst1 & Hinv1);
      [| |done|].
    { intros k l Hk. rewrite Hpl'. by apply lookup_app_l_Some. }
    { rewrite Hpl'. by rewrite list_lookup_middle. }
    destruct (IH (pre ++ [line])%list st1) as (st' & Hst' & Hinv');
      [by rewrite <- app_assoc|done|].
    exists st'. split; [|done]. simpl. rewrite Hst1. simpl.
    rewrite length_app in Hst'. simpl in Hst'.
    by rewrite Nat.add_1_r in Hst'.
Qed.

End splice.

(** ** One inlining step keeps a proof proper *)

Lemma prove_specialization_Ok proof specialization m :
  Proof.is_valid proof = Ok true →
  InferenceRule.specialization_map (statement proof) specialization = Some m →
  prove_specialization proof specialization
  = Ok (mkProof specialization (rules proof)
          (map (specialize_line m) (lines proof))) ∧
  Proof.is_valid (mkProof specialization (rules proof)
                    (map (specialize_line m) (lines proof))) = Ok true.
Proof.
  intros Hv Hm. split.
  - unfold prove_specialization, assert_valid, InferenceRule.is_specialization_of.
    rewrite Hv. simpl. rewrite bool_decide_eq_true_2 by (by rewrite Hm).
    simpl. by rewrite Hm.
  - apply is_valid_specialize; [|done]. by apply specialization_map_sound.
Qed.

Lemma nonneg_specialize m lines :
  nonneg lines → nonneg (map (specialize_line m) lines).
Proof.
  unfold nonneg. intros H. change (map ?h ?l) with (h <$> l).
  apply Forall_fmap. eapply Forall_impl; [done|]. by intros [].
Qed.

Lemma formula_renumbered new old :
  renumbered new old → Line.formula new = Line.formula old.
Proof. by intros (f & r & js & js' & -> & ->). Qed.

Lemma formula_shift_line n offset line :
  Line.formula (shift_line n offset line) = Line.formula line.
Proof. by destruct line. Qed.

Lemma last_filter_derivation (pl : list Line) l :
  last pl = Some l → is_derivation l = true →
  last (filter (λ l, is_derivation l = true) pl) = Some l.
Proof.
  intros Hl Hd. apply last_Some in Hl as [pl' ->].
  rewrite filter_app, filter_cons_True by done.
  rewrite filter_nil. by rewrite last_snoc.
Qed.

Lemma Forall2_last {A B} (P : A → B → Prop) l k y :
  Forall2 P l k → last k = Some y → ∃ x, last l = Some x ∧ P x y.
Proof.
  intros H. revert y. induction H as [|a b l k Hab H IH]; [done|].
  intros y. destruct H as [|a' b' l k Hab' H]; simpl.
  - intros ?; simplify_eq. eauto.
  - intros Hy. by apply IH.
Qed.

Section spliced.
Variables (stmt : InferenceRule) (allowed main_rules : gset InferenceRule).
Variables (main D : list Line) (n : nat) (f : Formula).
Variables (r : InferenceRule) (js : list Z) (d_last : Line).
Hypothesis Hmain :
  ∀ i line, main !! i = Some line → justified stmt main_rules main i line.
Hypothesis Hrules : main_rules ⊆ allowed.
Hypothesis Hline : main !! n = Some (DerivationLine f r js).
Hypothesis HD :
  ∀ k d, D !! k = Some d →
         justified stmt allowed (take n main ++ D) (n + k) d.
Hypothesis Hlast : last D = Some d_last.
Hypothesis Hformula : Line.formula d_last = f.

#[local] Abbreviation offset := (Z.of_nat (length D) - 1).
#[local] Abbreviation spliced :=
  (take n main ++ D ++ map (shift_line n offset) (drop (S n) main))%list.

Lemma length_take_main : length (take n main) = n.
Proof. apply lookup_lt_Some in Hline. rewrite length_take. lia. Qed.

Lemma length_D_pos : (0 < length D)%nat.
Proof. destruct D; [done|simpl; lia]. Qed.

Lemma spliced_lookup_before k :
  (k < n)%nat → spliced !! k = main !! k.
Proof.
  intros Hk. pose proof length_take_main.
  rewrite lookup_app_l by lia. by rewrite lookup_take_lt.
Qed.

Lemma spliced_lookup_D k :
  (k < length D)%nat → spliced !! (n + k)%nat = D !! k.
Proof.
  intros Hk. pose proof length_take_main as Ht.
  rewrite lookup_app_r by lia. rewrite Ht, Nat.add_comm, Nat.add_sub.
  by rewrite lookup_app_l.
Qed.

Lemma spliced_lookup_after k :
  spliced !! (n + length D + k)%nat
  = shift_line n offset <$> main !! (S n + k)%nat.
Proof.
  pose proof length_take_main as Ht.
  rewrite lookup_app_r by lia. rewrite Ht.
  replace (n + length D + k - n)%nat with (length D + k)%nat by lia.
  rewrite lookup_app_r by lia. rewrite Nat.add_comm, Nat.add_sub.
  change (map ?h ?l) with (h <$> l).
  by rewrite list_lookup_fmap, lookup_drop.
Qed.

Lemma spliced_cites_before i js1 fs1 :
  (i ≤ n)%nat → cites main i js1 fs1 → cites spliced i js1 fs1.
Proof.
  intros Hi. apply cites_agree. intros k Hk.
  rewrite spliced_lookup_before by lia. done.
Qed.

Lemma spliced_cites_after k js1 fs1 :
  cites main (S n + k) js1 fs1 →
  cites spliced (n + length D + k)
    (map (λ j, if (j <? Z.of_nat n)%Z then j else j + offset) js1) fs1.
Proof.
  intros Hc. unfold cites. change (map ?h ?l) with (h <$> l).
  apply Forall2_fmap_l. eapply Forall2_impl; [done|]. simpl.
  intros j g (k0 & l & -> & Hk0 & Hl & Hg).
  pose proof length_D_pos as HDpos.
  destruct (Z.ltb_spec (Z.of_nat k0) (Z.of_nat n)) as [Hlt|Hge].
  - exists k0, l. split_and!; [done|lia| |done].
    rewrite spliced_lookup_before by lia. done.
  - destruct (decide (k0 = n)) as [->|Hne].
    + exists (n + (length D - 1))%nat, d_last. split_and!.
      * lia.
      * lia.
      * rewrite spliced_lookup_D by lia. rewrite <- Hlast, last_lookup.
        f_equal. lia.
      * rewrite Hline in Hl. injection Hl as <-. by rewrite Hformula, <- Hg.
    + exists (n + length D + (k0 - S n))%nat, (shift_line n offset l).
      split_and!.
      * lia.
      * lia.
      * rewrite spliced_lookup_after.
        replace (S n + (k0 - S n))%nat with k0 by lia. by rewrite Hl.
      * by rewrite formula_shift_line.
Qed.

Lemma justified_weaken lines i line :
  justified stmt main_rules lines i line →
  justified stmt allowed lines i line.
Proof.
  destruct line; [done|]. simpl. intros [? ?]. split; [set_solver|done].
Qed.

Lemma spliced_justified i line :
  spliced !! i = Some line → justified stmt allowed spliced i line.
Proof.
  intros Hi. pose proof length_take_main as Ht.
  destruct (decide (i < n)%nat) as [Hlt|Hge].
  - rewrite spliced_lookup_before in Hi by done.
    pose proof (justified_weaken _ _ _ (Hmain _ _ Hi)) as Hj.
    destruct line as [g|g r1 js1]; [done|]. simpl in *.
    destruct Hj as (Hr & fs1 & Hc & Hsp). split; [done|].
    exists fs1. split; [|done]. apply spliced_cites_before; [lia|done].
  - destruct (decide (i < n + length D)%nat) as [HltD|HgeD].
    + replace i with (n + (i - n))%nat in * by lia.
      rewrite spliced_lookup_D in Hi by lia.
      pose proof (HD _ _ Hi) as Hj.
      rewrite app_assoc. by apply justified_app.
    + replace i with (n + length D + (i - n - length D))%nat in * by lia.
      rewrite spliced_lookup_after in Hi.
      destruct (main !! (S n + (i - n - length D))%nat) as [l|] eqn:Hl;
        [|done].
      simpl in Hi. injection Hi as <-.
      pose proof (justified_weaken _ _ _ (Hmain _ _ Hl)) as Hj.
      destruct l as [g|g r1 js1]; [done|]. simpl in *.
      destruct Hj as (Hr & fs1 & Hc & Hsp). split; [done|].
      exists fs1. split; [|done]. by apply spliced_cites_after.
Qed.

Lemma spliced_last line :
  last main = Some line →
  ∃ line', last spliced = Some line' ∧
           Line.formula line' = Line.formula line.
Proof.
  intros Hl. rewrite app_assoc.
  destruct (drop (S n) main) as [|t ts] eqn:Hdrop.
  - simpl. rewrite app_nil_r. exists d_last. split.
    + rewrite last_app, Hlast. done.
    + rewrite last_lookup in Hl.
      assert (length main ≤ S n)%nat as Hlen.
      { apply (f_equal length) in Hdrop. rewrite length_drop in Hdrop.
        simpl in Hdrop. lia. }
      pose proof (lookup_lt_Some _ _ _ Hline).
      replace (Nat.pred (length main)) with n in Hl by lia.
      rewrite Hline in Hl. injection Hl as <-. by rewrite Hformula.
  - assert (last (drop (S n) main) = Some line) as Hl'.
    { assert (S n < length main)%nat as Hlen.
      { apply (f_equal length) in Hdrop. rewrite length_drop in Hdrop.
        simpl in Hdrop. lia. }
      rewrite last_lookup, lookup_drop, length_drop.
      rewrite last_lookup in Hl. rewrite <- Hl. f_equal. lia. }
    exists (shift_line n offset line). split.
    + rewrite last_app. change (map ?h ?l) with (h <$> l).
      by rewrite fmap_last, <- Hdrop, Hl'.
    + apply formula_shift_line.
Qed.

End spliced.

Lemma inline_proof_once_proper main_proof line_number lemma_proof f js :
  proper main_proof → proper lemma_proof →
  lines main_proof !! line_number
  = Some (DerivationLine f (statement lemma_proof) js) →
  ends_with_derivation (lines lemma_proof) →
  ∃ result,
    _inline_proof_once main_proof line_number lemma_proof = Ok result ∧
    proper result ∧
    statement result = statement main_proof ∧
    rules result = rules main_proof ∪ rules lemma_proof.
Proof.
  intros Hm Hl Hline (l & Hlast & Hd).
  pose proof Hm as [Hvm Hnm]%proper_valid.
  pose proof Hl as [Hvl Hnl]%proper_valid.
  destruct Hm as [Hjm (lm & Hlastm & Hcm)].
  pose proof (Hjm _ _ Hline) as (Hr & fs & Hc & Hsp).
  pose proof (lookup_lt_Some _ _ _ Hline) as Hlen.
  set (target := mkInferenceRule fs f) in *.
  assert (Proof.rule_for_line main_proof line_number = Ok (Some target)) as Hrt.
  { apply (rule_for_line_derivation _ _ _ _ _ _ Hline). exists fs.
    split; [done|]. apply cites_formulas_at in Hc as [_ ?]; [done|lia]. }
  pose proof Hsp as Hsp'. unfold InferenceRule.is_specialization_of in Hsp'.
  apply bool_decide_eq_true_1 in Hsp'.
  destruct (InferenceRule.specialization_map (statement lemma_proof) target)
    as [m|] eqn:Hmap; [|done]. clear Hsp'.
  destruct (prove_specialization_Ok _ _ _ Hvl Hmap) as [Hp Hvp].
  set (partial_proof := mkProof target (rules lemma_proof)
                          (map (specialize_line m) (lines lemma_proof))) in *.
  assert (proper partial_proof) as [Hjp (lp & Hlastp & Hcp)].
  { apply proper_valid. split; [done|]. by apply nonneg_specialize. }
  destruct (splice_loop_inv (statement main_proof)
              (rules main_proof ∪ rules lemma_proof)
              (take line_number (lines main_proof)) line_number js target
              (rules lemma_proof) (lines partial_proof))
    with (suf := lines partial_proof) (pre := @nil Line)
         (st := mkSplice (take line_number (lines main_proof)) 0 ∅)
    as (st & Hloop & [(D & HD & HDj) _]).
  { rewrite length_take. lia. }
  { eapply cites_agree; [|done]. intros k Hk. by rewrite lookup_take_lt. }
  { done. }
  { set_solver. }
  { done. }
  { split; [|by intros k l0 ?].
    exists []. simpl. rewrite app_nil_r. split; [done|]. by intros k d ?. }
  simpl in Hloop.
  destruct (splice_loop_shape _ _ _ _ _ _ Hloop) as (D' & HD' & Hcount & HF).
  simpl in HD', Hcount. rewrite HD in HD'. apply app_inv_head in HD'. subst D'.
  assert (∃ d_last, last D = Some d_last ∧ Line.formula d_last = f)
    as (d_last & HlastD & Hformula).
  { simpl in Hlastp. change (map ?h ?l) with (h <$> l) in Hlastp.
    rewrite fmap_last, Hlast in Hlastp. simpl in Hlastp. simplify_eq.
    destruct (Forall2_last _ _ _ (specialize_line m l) HF)
      as (d & Hd' & Hdr).
    { apply last_filter_derivation; [|by destruct l].
      simpl. change (map ?h ?l) with (h <$> l). by rewrite fmap_last, Hlast. }
    exists d. split; [done|]. by rewrite (formula_renumbered _ _ Hdr). }
  assert (Z.of_nat (length (lines partial_proof)) - assumptions_count st - 1
          = Z.of_nat (length D) - 1) as Hoffset.
  { pose proof (length_filter_split (lines partial_proof)) as Hsplit.
    apply Forall2_length in HF. subst partial_proof. simpl in *. lia. }
  eexists. split.
  { unfold _inline_proof_once, assert_valid. rewrite Hvm, Hvl. simpl.
    rewrite (proj2 (Nat.ltb_lt _ _) Hlen). simpl.
    rewrite (proj2 (py_index_nat _ _ _) Hline). simpl.
    rewrite bool_decide_eq_true_2 by done. simpl.
    rewrite Hrt. simpl. rewrite Hp. simpl. rewrite Hloop. simpl.
    change (map (specialize_line m) (lines lemma_proof))
      with (lines partial_proof).
    rewrite Hoffset, HD, <- app_assoc. reflexivity. }
  split; [|done]. split; simpl.
  - rewrite HD in HDj.
    by eapply (spliced_justified _ _ (rules main_proof));
      [|set_solver|..].
  - destruct (spliced_last _ D _ _ _ _ _ Hline HlastD Hformula _ Hlastm)
      as (line' & Hl' & Hf').
    exists line'. split; [done|]. by rewrite Hf'.
Qed.

(** ** The loop of [inline_proof] *)

Section loop.
Variable lemma_proof : Proof.
Hypothesis Hfree : lemma_free (statement lemma_proof) (lines lemma_proof).

Lemma uses_lemma_true L line :
  uses_lemma L line = true ↔ ∃ f js, line = DerivationLine f L js.
Proof.
  unfold uses_lemma. destruct line as [f|f r js]; simpl.
  - split; [done|]. by intros (? & ? & ?).
  - case_bool_decide as H; split; try done.
    + intros _. simplify_eq. eauto.
    + intros (? & ? & ?). simplify_eq.
Qed.

Lemma list_find_None_usage (lines : list Line) :
  list_find (λ line, uses_lemma (statement lemma_proof) line = true) lines
  = None →
  lemma_free (statement lemma_proof) lines.
Proof.
  intros H%list_find_None. eapply Forall_impl; [done|]. simpl.
  intros line Hl. by destruct (uses_lemma _ line).
Qed.

(** The loop ends within as many rounds as there are lines that use the
    lemma, and one more for the scan that finds none. *)
Lemma inline_proof_loop_ends c proof :
  (usage_count (statement lemma_proof) (lines proof) ≤ c)%nat →
  ∃ outcome,
    inline_proof_loop (S c) proof lemma_proof = Some outcome ∧
    ∀ result, outcome = Ok result →
              lemma_free (statement lemma_proof) (lines result).
Proof.
  revert proof. induction c as [|c IH]; intros proof Hc; simpl.
  - destruct (list_find _ (lines proof)) as [[i line]|] eqn:Hfind.
    + destruct (_inline_proof_once proof i lemma_proof) as [proof'|e]
        eqn:Hstep.
      * apply inline_proof_once_usage in Hstep; [lia|done].
      * exists (Err e). split; [done|]. by intros ? ?.
    + exists (Ok proof). split; [done|]. intros ? ?; simplify_eq.
      by apply list_find_None_usage.
  - destruct (list_find _ (lines proof)) as [[i line]|] eqn:Hfind.
    + destruct (_inline_proof_once proof i lemma_proof) as [proof'|e]
        eqn:Hstep.
      * apply inline_proof_once_usage in Hstep; [|done].
        apply (IH proof'). lia.
      * exists (Err e). split; [done|]. by intros ? ?.
    + exists (Ok proof). split; [done|]. intros ? ?; simplify_eq.
      by apply list_find_None_usage.
Qed.

Hypothesis Hlemma : proper lemma_proof.
Hypothesis Hlast : ends_with_derivation (lines lemma_proof).

(** From a proper proof, the loop returns a proper proof. *)
Lemma inline_proof_loop_proper c proof :
  proper proof →
  (usage_count (statement lemma_proof) (lines proof) ≤ c)%nat →
  ∃ result,
    inline_proof_loop (S c) proof lemma_proof = Some (Ok result) ∧
    proper result ∧
    statement result = statement proof ∧
    lemma_free (statement lemma_proof) (lines result).
Proof.
  revert proof. induction c as [|c IH]; intros proof Hp Hc; simpl.
  - destruct (list_find _ (lines proof)) as [[i line]|] eqn:Hfind.
    + apply list_find_Some in Hfind as (Hi & (f & js & ->)%uses_lemma_true & _).
      destruct (inline_proof_once_proper _ _ _ _ _ Hp Hlemma Hi Hlast)
        as (proof' & Hstep & _).
      apply inline_proof_once_usage in Hstep; [lia|done].
    + exists proof. split_and!; try done. by apply list_find_None_usage.
  - destruct (list_find _ (lines proof)) as [[i line]|] eqn:Hfind.
    + apply list_find_Some in Hfind as (Hi & (f & js & ->)%uses_lemma_true & _).
      destruct (inline_proof_once_proper _ _ _ _ _ Hp Hlemma Hi Hlast)
        as (proof' & Hstep & Hp' & Hs' & _).
      rewrite Hstep.
      apply inline_proof_once_usage in Hstep; [|done].
      destruct (IH proof' Hp') as (result & Hloop & Hpr & Hsr & Hfr); [lia|].
      exists result. split_and!; try done. congruence.
    + exists proof. split_and!; try done. by apply list_find_None_usage.
Qed.

End loop.

(** Dropping a rule that no line uses keeps a proof proper. *)
Lemma proper_drop_rule (proof : Proof) (L : InferenceRule) :
  proper proof → lemma_free L (lines proof) →
  proper (mkProof (statement proof) (rules proof ∖ {[ L ]}) (lines proof)).
Proof.
  intros [Hj Hlast] Hfree. split; [|done]. simpl. intros i line Hi.
  pose proof (Hj _ _ Hi) as Hji.
  eapply Forall_forall in Hfree; [|by eapply list_elem_of_lookup_2].
  destruct line as [f|f r js]; [done|]. simpl in *.
  destruct Hji as [Hr Hc]. split; [|done].
  apply elem_of_difference. split; [done|]. intros ->%elem_of_singleton.
  assert (uses_lemma L (DerivationLine f L js) = true); [|congruence].
  apply uses_lemma_true. eauto.
Qed.

(** ** Inlining *)

(** C3, as amended: for a valid proof [P] that has the lemma rule [L] among
    its allowed rules and a valid proof [Q] of [L], when no justification
    number of the two proofs is negative, no line of [Q] uses [L] and the
    last line of [Q] is a derivation line, [inline_proof] returns a valid
    proof of the statement of [P] whose allowed rules do not contain [L]. *)
Theorem inline_proof_valid (main_proof lemma_proof : Proof) :
  Proof.is_valid main_proof = Ok true →
  statement lemma_proof ∈ rules main_proof →
  Proof.is_valid lemma_proof = Ok true →
  nonneg (lines main_proof) →
  nonneg (lines lemma_proof) →
  lemma_free (statement lemma_proof) (lines lemma_proof) →
  ends_with_derivation (lines lemma_proof) →
  ∃ fuel result,
    inline_proof fuel main_proof lemma_proof = Some (Ok result) ∧
    Proof.is_valid result = Ok true ∧
    statement result = statement main_proof ∧
    statement lemma_proof ∉ rules result.
Proof.
  intros Hvm _ Hvl Hnm Hnl Hfree Hlast.
  assert (proper main_proof) as Hpm by by apply proper_valid.
  assert (proper lemma_proof) as Hpl by by apply proper_valid.
  destruct (inline_proof_loop_proper lemma_proof Hfree Hpl Hlast
              (usage_count (statement lemma_proof) (lines main_proof))
              main_proof Hpm)
    as (result & Hloop & Hpr & Hsr & Hfr); [done|].
  eexists (S _), _. split.
  { unfold inline_proof, assert_valid. rewrite Hvm, Hvl. simpl assert.
    cbv iota beta. unfold rbind at 1 2. cbv iota beta.
    rewrite Hloop. reflexivity. }
  pose proof (proper_drop_rule _ _ Hpr Hfr) as [Hv _]%proper_valid.
  split; [done|]. split; [done|]. simpl. set_solver.
Qed.

Lemma inline_proof_valid_witness :
  ∃ fuel result,
    inline_proof fuel quadruple_proof double_proof = Some (Ok result) ∧
    Proof.is_valid result = Ok true ∧
    statement result = statement quadruple_proof ∧
    statement double_proof ∉ rules result.
Proof.
  apply inline_proof_valid.
  - by vm_compute.
  - compute_done.
  - by vm_compute.
  - compute_done.
  - compute_done.
  - compute_done.
  - compute_done.
Defined.





Lemma circular_step :
  _inline_proof_once circular_proof 0 circular_proof = Ok circular_proof.
Proof. by vm_compute. Qed.

Lemma circular_loop fuel :
  inline_proof_loop fuel circular_proof circular_proof = None.
Proof.
  induction fuel as [|fuel IH]; [done|].
  change (inline_proof_loop (S fuel) circular_proof circular_proof)
    with (match _inline_proof_once circular_proof 0 circular_proof with
          | Ok new_proof' => inline_proof_loop fuel new_proof' circular_proof
          | Err e => Some (Err e)
          end).
  by rewrite circular_step.
Qed.

(** C3 fails as stated: with a valid proof of a lemma that uses the lemma
    itself the loop of [inline_proof] never ends; with a valid lemma proof
    that ends with an assumption line the proof returned is not valid; with
    a valid lemma proof that counts a justification from the end
    [inline_proof] raises [KeyError]. *)
Lemma inline_proof_not_always_valid :
  (Proof.is_valid circular_proof = Ok true ∧
   statement circular_proof ∈ rules circular_proof ∧
   ∀ fuel, inline_proof fuel circular_proof circular_proof = None) ∧
  (Proof.is_valid repeat_user = Ok true ∧
   Proof.is_valid repeat_proof = Ok true ∧
   statement repeat_proof ∈ rules repeat_user ∧
   ∃ result, (∀ fuel, (2 ≤ fuel)%nat →
                inline_proof fuel repeat_user repeat_proof = Some (Ok result)) ∧
             Proof.is_valid result = Ok false) ∧
  (Proof.is_valid quadruple_proof = Ok true ∧
   Proof.is_valid double_proof_from_end = Ok true ∧
   statement double_proof_from_end ∈ rules quadruple_proof ∧
   ∀ fuel, (1 ≤ fuel)%nat →
     inline_proof fuel quadruple_proof double_proof_from_end
     = Some (Err KeyError)).
Proof.
  split_and!.
  - by vm_compute.
  - compute_done.
  - intros fuel. unfold inline_proof.
    assert (assert_valid circular_proof = Ok tt) as -> by by vm_compute.
    by rewrite circular_loop.
  - by vm_compute.
  - by vm_compute.
  - compute_done.
  - eexists. split.
    + intros [|[|fuel]] Hfuel; [lia..|]. vm_compute. reflexivity.
    + by vm_compute.
  - by vm_compute.
  - by vm_compute.
  - compute_done.
  - intros [|fuel] Hfuel; [lia|]. by vm_compute.
Qed.

(** C7: [idle_proof] is a valid proof that allows the rule [double] and uses
    it in no line, and [double_proof_two_rules] is a valid proof of [double];
    the proof that [inline_proof] returns allows the rules of [idle_proof]
    without [double], not the union of the rules of the two proofs without
    [double]. *)
Theorem inline_proof_rules_without_usage :
  Proof.is_valid idle_proof = Ok true ∧
  Proof.is_valid double_proof_two_rules = Ok true ∧
  statement double_proof_two_rules = double ∧
  ∃ result,
    inline_proof 1 idle_proof double_proof_two_rules = Some (Ok result) ∧
    rules result = rules idle_proof ∖ {[ double ]} ∧
    rules result
    ≠ (rules idle_proof ∪ rules double_proof_two_rules) ∖ {[ double ]}.
Proof.
  split_and!; [by vm_compute..|].
  exists (mkProof (statement idle_proof) (rules idle_proof ∖ {[ double ]})
                  (lines idle_proof)).
  split; [vm_compute; reflexivity|]. split; [reflexivity|]. simpl rules.
  assert (repeat_rule ∉ ({[ or_intro; double ]} ∖ {[ double ]}
                         : gset InferenceRule)) as Hout by compute_done.
  assert (repeat_rule ∈ (({[ or_intro; double ]} ∪ {[ or_intro; repeat_rule ]})
                         ∖ {[ double ]} : gset InferenceRule)) as Hin
    by compute_done.
  intros H. apply Hout. unfold idle_proof, double_proof_two_rules in H.
  simpl in H. by rewrite H.
Qed.

(** * Further properties *)

(** ** Halving *)

(** X1: [half] returns, for every even integer, negative ones included, an
    integer whose double is the argument; for an odd integer the assertion
    fails. *)
Theorem half_spec (x : Z) :
  (x mod 2 = 0 → ∃ z, half x = Ok z ∧ z + z = x) ∧
  (x mod 2 ≠ 0 → half x = Err AssertionError).
Proof.
  unfold half. split; intros Hx.
  - exists (x / 2). rewrite (proj2 (Z.eqb_eq _ _) Hx). split; [done|].
    pose proof (Z.div_mod x 2). lia.
  - by rewrite (proj2 (Z.eqb_neq _ _) Hx).
Qed.

Lemma half_spec_witness :
  (-6) mod 2 = 0 ∧ (∃ z, half (-6) = Ok z ∧ z + z = -6) ∧
  7 mod 2 ≠ 0 ∧ half 7 = Err AssertionError.
Proof.
  split; [reflexivity|]. split; [by apply (proj1 (half_spec (-6)))|].
  split; [done|]. by apply (proj2 (half_spec 7)).
Defined.

(** ** The name conversions *)

Lemma lower_code (c : ascii) :
  (65 ≤ nat_of_ascii c ≤ 90)%nat →
  nat_of_ascii (lower c) = (nat_of_ascii c + 32)%nat.
Proof.
  intros Hc. unfold lower.
  assert ((65 <=? nat_of_ascii c)%nat && (nat_of_ascii c <=? 90)%nat = true) as ->.
  { apply andb_true_iff. split; apply Nat.leb_le; lia. }
  apply nat_ascii_embedding. lia.
Qed.

Lemma upper_lower (c : ascii) :
  (65 ≤ nat_of_ascii c ≤ 90)%nat → upper (lower c) = c.
Proof.
  intros Hc. unfold upper. rewrite (lower_code c Hc).
  assert ((97 <=? nat_of_ascii c + 32)%nat && (nat_of_ascii c + 32 <=? 122)%nat
          = true) as ->.
  { apply andb_true_iff. split; apply Nat.leb_le; lia. }
  replace (nat_of_ascii c + 32 - 32)%nat with (nat_of_ascii c) by lia.
  apply ascii_nat_embedding.
Qed.

Lemma isalnum_lower (c : ascii) :
  (65 ≤ nat_of_ascii c ≤ 90)%nat → isalnum_char (lower c) = true.
Proof.
  intros Hc. unfold isalnum_char. rewrite (lower_code c Hc).
  apply orb_true_iff. right.
  apply andb_true_iff. split; apply Nat.leb_le; lia.
Qed.

Lemma is_relation_inv (s : string) :
  is_relation s = true →
  ∃ c rest, s = String c rest ∧ (70 ≤ nat_of_ascii c ≤ 84)%nat ∧
            all_chars isalnum_char rest = true.
Proof.
  destruct s as [|c rest]; [done|]. unfold is_relation.
  rewrite all_chars_cons.
  intros H. apply andb_true_iff in H as [H1 H2].
  apply andb_true_iff in H1 as [Ha Hb]. apply andb_true_iff in H2 as [_ H2].
  apply Nat.leb_le in Ha, Hb. eauto 10.
Qed.

Lemma relation_name_to_function_name_Ok (relation : string) :
  is_relation relation = true →
  ∃ function, relation_name_to_function_name relation = Ok function ∧
              is_function function = true ∧
              function_name_to_relation_name function = Ok relation.
Proof.
  intros Hr. destruct (is_relation_inv _ Hr) as (c & rest & -> & Hc & Hrest).
  assert (65 ≤ nat_of_ascii c ≤ 90)%nat as Hc' by lia.
  exists (String (lower c) rest).
  assert (is_function (String (lower c) rest) = true) as Hf.
  { unfold is_function.
    rewrite all_chars_cons, (lower_code c Hc'), (isalnum_lower c Hc'), Hrest.
    rewrite !andb_true_r. apply andb_true_iff. split; apply Nat.leb_le; lia. }
  split_and!; [|done|].
  - unfold relation_name_to_function_name. by rewrite Hr.
  - unfold function_name_to_relation_name. rewrite Hf.
    unfold assert, rbind. by rewrite upper_lower.
Qed.

Lemma function_name_to_relation_name_Ok (function : string) :
  is_function function = true →
  ∃ relation, function_name_to_relation_name function = Ok relation ∧
              is_relation relation = true ∧
              relation_name_to_function_name relation = Ok function.
Proof.
  intros Hf. destruct (is_function_inv _ Hf) as (c & rest & -> & Hc & Hrest).
  assert (97 ≤ nat_of_ascii c ≤ 122)%nat as Hc' by lia.
  exists (String (upper c) rest).
  assert (is_relation (String (upper c) rest) = true) as Hr.
  { unfold is_relation.
    rewrite all_chars_cons, (upper_code c Hc'), (isalnum_upper c Hc'), Hrest.
    rewrite !andb_true_r. apply andb_true_iff. split; apply Nat.leb_le; lia. }
  split_and!; [|done|].
  - unfold function_name_to_relation_name. by rewrite Hf.
  - unfold relation_name_to_function_name. rewrite Hr.
    unfold assert, rbind. by rewrite lower_upper.
Qed.

(** X2: [relation_name_to_function_name] turns every valid relation name
    into a valid function name, and [function_name_to_relation_name] gives
    the relation name back. *)
Theorem relation_name_round_trip (relation : string) :
  is_relation relation = true →
  ∃ function,
    relation_name_to_function_name relation = Ok function ∧
    is_function function = true ∧
    function_name_to_relation_name function = Ok relation.
Proof. apply relation_name_to_function_name_Ok. Qed.

Lemma relation_name_round_trip_witness :
  is_relation "Plus" = true ∧
  ∃ function,
    relation_name_to_function_name "Plus" = Ok function ∧
    is_function function = true ∧
    function_name_to_relation_name function = Ok "Plus"%string.
Proof. split; [reflexivity|]. by apply relation_name_round_trip. Defined.

(** X3: [function_name_to_relation_name] is injective on the valid function
    names, and its values are valid relation names. *)
Theorem function_name_to_relation_name_inj (f1 f2 relation : string) :
  function_name_to_relation_name f1 = Ok relation →
  function_name_to_relation_name f2 = Ok relation →
  f1 = f2 ∧ is_relation relation = true.
Proof.
  intros H1 H2.
  assert (is_function f1 = true) as Hf1.
  { unfold function_name_to_relation_name in H1.
    by destruct (is_function f1). }
  assert (is_function f2 = true) as Hf2.
  { unfold function_name_to_relation_name in H2.
    by destruct (is_function f2). }
  destruct (function_name_to_relation_name_Ok _ Hf1) as (r1 & Hr1 & Hrel & Hb1).
  destruct (function_name_to_relation_name_Ok _ Hf2) as (r2 & Hr2 & _ & Hb2).
  rewrite H1 in Hr1. rewrite H2 in Hr2.
  injection Hr1 as <-. injection Hr2 as <-.
  split; [congruence|done].
Qed.

Lemma function_name_to_relation_name_inj_witness :
  "plus"%string = "plus"%string ∧ is_relation "Plus" = true.
Proof.
  by apply (function_name_to_relation_name_inj "plus" "plus" "Plus").
Defined.

(** X4: the relation name of a valid function name is not a valid function
    name: converting it once more fails the assertion of
    [function_name_to_relation_name]. *)
Theorem function_name_to_relation_name_twice (function : string) :
  is_function function = true →
  ∃ relation,
    function_name_to_relation_name function = Ok relation ∧
    function_name_to_relation_name relation = Err AssertionError.
Proof.
  intros Hf.
  destruct (function_name_to_relation_name_Ok _ Hf) as (relation & Hr & Hrel & _).
  exists relation. split; [done|].
  assert (is_function relation = false) as Hnf.
  { apply is_relation_inv in Hrel as (c & rest & -> & Hc & _).
    unfold is_function.
    apply andb_false_iff. left. apply andb_false_iff. left.
    apply Nat.leb_gt. lia. }
  unfold function_name_to_relation_name. by rewrite Hnf.
Qed.

Lemma function_name_to_relation_name_twice_witness :
  is_function "times" = true ∧
  ∃ relation,
    function_name_to_relation_name "times" = Ok relation ∧
    function_name_to_relation_name relation = Err AssertionError.
Proof.
  split; [reflexivity|]. by apply function_name_to_relation_name_twice.
Defined.

(** ** Merging *)

Lemma agree_sym (m1 m2 : SpecializationMap) : agree m1 m2 → agree m2 m1.
Proof. intros H k v1 v2 H1 H2. symmetry. by apply (H k). Qed.

Lemma agree_union_comm (m1 m2 : SpecializationMap) :
  agree m1 m2 → m1 ∪ m2 = m2 ∪ m1.
Proof.
  intros Hag. apply map_eq. intros k. rewrite !lookup_union.
  destruct (m1 !! k) as [v1|] eqn:H1, (m2 !! k) as [v2|] eqn:H2; try done.
  by rewrite (Hag k v1 v2 H1 H2).
Qed.

Lemma agree_union_iff_l (a b c : SpecializationMap) :
  agree a b → agree (a ∪ b) c ↔ agree a c ∧ agree b c.
Proof.
  intros Hab. split.
  - intros H. split; intros k v1 v3 H1 H3; apply (H k); try done.
    + by apply lookup_union_Some_l.
    + by apply (lookup_weaken _ _ _ _ H1), agree_union_r.
  - intros [Hac Hbc] k v v3 Hv H3.
    apply lookup_union_Some_raw in Hv as [Hv|[_ Hv]].
    + by apply (Hac k).
    + by apply (Hbc k).
Qed.

Lemma agree_union_iff_r (a b c : SpecializationMap) :
  agree b c → agree a (b ∪ c) ↔ agree a b ∧ agree a c.
Proof.
  intros Hbc. split.
  - intros H. split; intros k v1 v3 H1 H3; apply (H k); try done.
    + by apply lookup_union_Some_l.
    + by apply (lookup_weaken _ _ _ _ H3), agree_union_r.
  - intros [Hab Hac] k v v3 Hv H3.
    apply lookup_union_Some_raw in H3 as [H3|[_ H3]].
    + by apply (Hab k).
    + by apply (Hac k).
Qed.

Lemma merge_comm_Some sm1 sm2 r :
  InferenceRule._merge_specialization_maps sm1 sm2 = Some r →
  InferenceRule._merge_specialization_maps sm2 sm1 = Some r.
Proof.
  intros (m1 & m2 & -> & -> & Hag & ->)%merge_is_Some.
  apply merge_Some. split; [by apply agree_sym|by apply agree_union_comm].
Qed.

Lemma merge_assoc_Some_1 sm1 sm2 sm3 r :
  InferenceRule._merge_specialization_maps
    (InferenceRule._merge_specialization_maps sm1 sm2) sm3 = Some r →
  InferenceRule._merge_specialization_maps sm1
    (InferenceRule._merge_specialization_maps sm2 sm3) = Some r.
Proof.
  intros (m12 & c & H12 & -> & Hag & ->)%merge_is_Some.
  apply merge_is_Some in H12 as (a & b & -> & -> & Hab & ->).
  apply (agree_union_iff_l _ _ _ Hab) in Hag as [Hac Hbc].
  assert (InferenceRule._merge_specialization_maps (Some b) (Some c)
          = Some (b ∪ c)) as -> by by apply merge_Some.
  apply merge_Some. split; [by apply agree_union_iff_r|].
  by rewrite (assoc_L (∪)).
Qed.

Lemma merge_assoc_Some_2 sm1 sm2 sm3 r :
  InferenceRule._merge_specialization_maps sm1
    (InferenceRule._merge_specialization_maps sm2 sm3) = Some r →
  InferenceRule._merge_specialization_maps
    (InferenceRule._merge_specialization_maps sm1 sm2) sm3 = Some r.
Proof.
  intros (a & m23 & -> & H23 & Hag & ->)%merge_is_Some.
  apply merge_is_Some in H23 as (b & c & -> & -> & Hbc & ->).
  apply (agree_union_iff_r _ _ _ Hbc) in Hag as [Hab Hac].
  assert (InferenceRule._merge_specialization_maps (Some a) (Some b)
          = Some (a ∪ b)) as -> by by apply merge_Some.
  apply merge_Some. split; [by apply agree_union_iff_l|].
  by rewrite (assoc_L (∪)).
Qed.

(** X5: merging is commutative and associative, so the order in which
    [specialization_map] folds the maps of the conclusion and of the
    assumptions does not change its result; merging a map with itself or
    with the empty map gives the map back. *)
Theorem merge_specialization_maps_algebra
    (sm1 sm2 sm3 : option SpecializationMap) (m : SpecializationMap) :
  InferenceRule._merge_specialization_maps sm1 sm2
  = InferenceRule._merge_specialization_maps sm2 sm1 ∧
  InferenceRule._merge_specialization_maps
    (InferenceRule._merge_specialization_maps sm1 sm2) sm3
  = InferenceRule._merge_specialization_maps sm1
      (InferenceRule._merge_specialization_maps sm2 sm3) ∧
  InferenceRule._merge_specialization_maps (Some m) (Some m) = Some m ∧
  InferenceRule._merge_specialization_maps (Some ∅) (Some m) = Some m ∧
  InferenceRule._merge_specialization_maps (Some m) (Some ∅) = Some m.
Proof.
  split_and!.
  - destruct (InferenceRule._merge_specialization_maps sm1 sm2) as [r|] eqn:H1.
    + symmetry. by apply merge_comm_Some.
    + destruct (InferenceRule._merge_specialization_maps sm2 sm1) as [r|] eqn:H2;
        [|done].
      apply merge_comm_Some in H2. congruence.
  - destruct (InferenceRule._merge_specialization_maps
                (InferenceRule._merge_specialization_maps sm1 sm2) sm3)
      as [r|] eqn:H1.
    + symmetry. by apply merge_assoc_Some_1.
    + destruct (InferenceRule._merge_specialization_maps sm1
                  (InferenceRule._merge_specialization_maps sm2 sm3))
        as [r|] eqn:H2; [|done].
      apply merge_assoc_Some_2 in H2. congruence.
  - apply merge_Some. split; [|by rewrite map_union_idemp].
    intros k v1 v2 H1 H2. congruence.
  - apply merge_Some. split; [|by rewrite (left_id_L ∅ (∪))].
    intros k v1 v2 H1 H2. by rewrite lookup_empty in H1.
  - apply merge_Some. split; [|by rewrite (right_id_L ∅ (∪))].
    intros k v1 v2 H1 H2. by rewrite lookup_empty in H2.
Qed.

(** ** Substitution and specialization *)

Lemma substitute_variables_empty (f : Formula) :
  substitute_variables f ∅ = f.
Proof.
  induction f as [c|x|o g IH|o g1 IH1 g2 IH2]; simpl; try congruence.
  by rewrite lookup_empty.
Qed.

Lemma substitute_variables_compose (f : Formula) (m1 m2 : SpecializationMap) :
  substitute_variables (substitute_variables f m1) m2
  = substitute_variables f (compose_maps m1 m2).
Proof.
  induction f as [c|x|o g IH|o g1 IH1 g2 IH2]; simpl; try congruence.
  unfold compose_maps. rewrite lookup_union, lookup_fmap.
  destruct (m1 !! x) as [g|] eqn:H1; simpl.
  - by destruct (m2 !! x).
  - by destruct (m2 !! x).
Qed.

Lemma substitute_variables_ext (f : Formula) (m m' : SpecializationMap) :
  (∀ v, v ∈ Formula.variables f → m !! v = m' !! v) →
  substitute_variables f m = substitute_variables f m'.
Proof.
  induction f as [c|x|o g IH|o g1 IH1 g2 IH2]; simpl; intros H.
  - done.
  - rewrite (H x); [done|set_solver].
  - f_equal. by apply IH.
  - f_equal; [apply IH1|apply IH2]; intros v Hv; apply H; set_solver.
Qed.

Lemma elem_of_fold_variables (fs : list Formula) (vars : gset string) v :
  v ∈ fold_left (λ vars f, vars ∪ Formula.variables f) fs vars ↔
  v ∈ vars ∨ ∃ f, f ∈ fs ∧ v ∈ Formula.variables f.
Proof.
  revert vars. induction fs as [|f fs IH]; intros vars; simpl.
  - split; [by left|]. intros [?|(f & Hf & _)]; [done|].
    by apply elem_of_nil in Hf.
  - rewrite IH, elem_of_union. split.
    + intros [[?|?]|(g & Hg & ?)]; [by left|right..].
      * exists f. split; [by left|done].
      * exists g. split; [by right|done].
    + intros [?|(g & Hg & ?)]; [by left; left|].
      apply elem_of_cons in Hg as [->|Hg]; [by left; right|].
      right. eauto.
Qed.

Lemma elem_of_rule_variables (R : InferenceRule) v :
  v ∈ InferenceRule.variables R ↔
  v ∈ Formula.variables (conclusion R) ∨
  ∃ f, f ∈ assumptions R ∧ v ∈ Formula.variables f.
Proof. apply elem_of_fold_variables. Qed.

(** X6: specializing with the empty map changes nothing, and specializing
    twice is specializing once with the composed map, which binds every key
    of the first map to its formula rewritten by the second and every other
    key of the second map as the second does. *)
Theorem specialize_compose (R : InferenceRule) (m1 m2 : SpecializationMap) :
  InferenceRule.specialize R ∅ = R ∧
  InferenceRule.specialize (InferenceRule.specialize R m1) m2
  = InferenceRule.specialize R (compose_maps m1 m2).
Proof.
  unfold InferenceRule.specialize. destruct R as [fs c]. simpl. split.
  - f_equal; [|apply substitute_variables_empty].
    induction fs as [|f fs IH]; [done|]. simpl.
    by rewrite substitute_variables_empty, IH.
  - f_equal; [|apply substitute_variables_compose].
    rewrite map_map. apply map_ext. intros f.
    apply substitute_variables_compose.
Qed.

(** X7: [specialize] looks only at the bindings of the variables of the
    rule: two maps that bind each variable that [variables] returns alike
    give the same rule. *)
Theorem specialize_ext (R : InferenceRule) (m m' : SpecializationMap) :
  (∀ v, v ∈ InferenceRule.variables R → m !! v = m' !! v) →
  InferenceRule.specialize R m = InferenceRule.specialize R m'.
Proof.
  intros H. unfold InferenceRule.specialize. f_equal.
  - apply map_ext_in. intros f Hf%list_elem_of_In.
    apply substitute_variables_ext. intros v Hv. apply H.
    apply elem_of_rule_variables. eauto.
  - apply substitute_variables_ext. intros v Hv. apply H.
    apply elem_of_rule_variables. eauto.
Qed.

Lemma specialize_ext_witness :
  InferenceRule.specialize or_intro {[ "p" := vr; "q" := vq ]}
  = InferenceRule.specialize or_intro
      {[ "p" := vr; "q" := vq; "r" := or_ vp vp ]}.
Proof.
  apply specialize_ext. intros v Hv.
  assert (v = "p"%string ∨ v = "q"%string) as [->| ->]; [|done..].
  apply elem_of_rule_variables in Hv.
  unfold or_intro, or_, vp, vq in Hv. simpl in Hv.
  destruct Hv as [Hv|(f & Hf & Hv)]; [set_solver|].
  apply list_elem_of_singleton in Hf as ->. set_solver.
Defined.

Section specialization_map_more.
Import InferenceRule.

Lemma formula_specialization_map_dom general specialization m :
  _formula_specialization_map general specialization = Some m →
  dom m = Formula.variables general.
Proof.
  revert specialization m.
  induction general as [c|x|o g1 IH1|o g1 IH1 g2 IH2]; intros s m Hm;
    simpl in *.
  - case_decide; [|done]. simplify_eq. apply dom_empty_L.
  - simplify_eq. apply dom_singleton_L.
  - destruct s as [| |o' s1|]; try done. case_decide; [|done]. by eapply IH1.
  - destruct s as [| | |o' s1 s2]; try done. case_decide; [|done].
    apply merge_is_Some in Hm as (a & b & Ha & Hb & _ & ->).
    by rewrite dom_union_L, (IH1 _ _ Ha), (IH2 _ _ Hb).
Qed.

Lemma specialization_map_loop_dom gs ss m0 m :
  length gs = length ss →
  specialization_map_loop gs ss (Some m0) = Some m →
  dom m = fold_left (λ vars f, vars ∪ Formula.variables f) gs (dom m0).
Proof.
  revert ss m0. induction gs as [|g gs IH]; intros [|s ss] m0 Hlen Hm;
    try done.
  - simpl in *. by simplify_eq.
  - change (specialization_map_loop gs ss
              (_merge_specialization_maps (Some m0)
                 (_formula_specialization_map g s)) = Some m) in Hm.
    simpl in Hlen. simpl fold_left.
    destruct (_merge_specialization_maps (Some m0)
                (_formula_specialization_map g s)) as [r|] eqn:Hr;
      [|by rewrite specialization_map_loop_None in Hm].
    apply merge_is_Some in Hr as (a & b & Ha & Hb & _ & ->).
    injection Ha as <-.
    rewrite (IH ss (m0 ∪ b)) by (done || lia).
    by rewrite dom_union_L, (formula_specialization_map_dom _ _ _ Hb).
Qed.

Lemma formula_specialization_map_unique general specialization m m' :
  _formula_specialization_map general specialization = Some m →
  substitute_variables general m' = specialization →
  ∀ k v, m !! k = Some v → substitute_variables (FVar k) m' = v.
Proof.
  revert specialization m.
  induction general as [c|x|o g1 IH1|o g1 IH1 g2 IH2]; intros s m Hm Hs k v Hk;
    simpl in *.
  - case_decide; [|done]. by simplify_eq.
  - simplify_eq. by apply lookup_singleton_Some in Hk as [<- <-].
  - destruct s as [| |o' s1|]; try done. case_decide; [|done].
    injection Hs as _ Hs. by eapply IH1.
  - destruct s as [| | |o' s1 s2]; try done. case_decide; [|done].
    injection Hs as _ Hs1 Hs2.
    apply merge_is_Some in Hm as (a & b & Ha & Hb & _ & ->).
    apply lookup_union_Some_raw in Hk as [Hk|[_ Hk]].
    + by eapply IH1.
    + by eapply IH2.
Qed.

Lemma specialization_map_loop_unique gs ss m0 m m' :
  specialization_map_loop gs ss (Some m0) = Some m →
  map (λ f, substitute_variables f m') gs = ss →
  (∀ k v, m0 !! k = Some v → substitute_variables (FVar k) m' = v) →
  ∀ k v, m !! k = Some v → substitute_variables (FVar k) m' = v.
Proof.
  revert ss m0. induction gs as [|g gs IH]; intros [|s ss] m0 Hm Hss H0;
    try done.
  - simpl in *. by simplify_eq.
  - change (specialization_map_loop gs ss
              (_merge_specialization_maps (Some m0)
                 (_formula_specialization_map g s)) = Some m) in Hm.
    simpl in Hss. injection Hss as Hs Hss.
    destruct (_merge_specialization_maps (Some m0)
                (_formula_specialization_map g s)) as [r|] eqn:Hr;
      [|by rewrite specialization_map_loop_None in Hm].
    apply merge_is_Some in Hr as (a & b & Ha & Hb & _ & ->).
    injection Ha as <-.
    apply (IH ss (m0 ∪ b)); [done..|].
    intros k v [Hk|[_ Hk]]%lookup_union_Some_raw; [by apply H0|].
    by eapply formula_specialization_map_unique.
Qed.

(** Maps that bind every key to the key itself. *)
Lemma formula_specialization_map_refl general :
  ∃ m, _formula_specialization_map general general = Some m ∧
       ∀ k v, m !! k = Some v → v = FVar k.
Proof.
  induction general as [c|x|o g1 IH1|o g1 IH1 g2 IH2]; simpl.
  - rewrite decide_True by done. exists ∅. split; [done|].
    intros k v Hk. by rewrite lookup_empty in Hk.
  - eexists. split; [done|]. by intros k v [<- <-]%lookup_singleton_Some.
  - by rewrite decide_True.
  - rewrite decide_True by done.
    destruct IH1 as (a & -> & Ha), IH2 as (b & -> & Hb).
    exists (a ∪ b). split.
    + apply merge_Some. split; [|done]. intros k v1 v2 H1 H2.
      by rewrite (Ha _ _ H1), (Hb _ _ H2).
    + intros k v [Hk|[_ Hk]]%lookup_union_Some_raw; eauto.
Qed.

Lemma specialization_map_loop_refl gs m0 :
  (∀ k v, m0 !! k = Some v → v = FVar k) →
  ∃ m, specialization_map_loop gs gs (Some m0) = Some m ∧
       ∀ k v, m !! k = Some v → v = FVar k.
Proof.
  revert m0. induction gs as [|g gs IH]; intros m0 H0.
  - simpl. eauto.
  - destruct (formula_specialization_map_refl g) as (b & Hg & Hb).
    change (specialization_map_loop (g :: gs) (g :: gs) (Some m0))
      with (specialization_map_loop gs gs
              (_merge_specialization_maps (Some m0)
                 (_formula_specialization_map g g))).
    rewrite Hg.
    assert (_merge_specialization_maps (Some m0) (Some b) = Some (m0 ∪ b))
      as ->.
    { apply merge_Some. split; [|done]. intros k v1 v2 H1 H2.
      by rewrite (H0 _ _ H1), (Hb _ _ H2). }
    apply IH. intros k v [Hk|[_ Hk]]%lookup_union_Some_raw; eauto.
Qed.

Lemma specialization_map_refl R :
  ∃ m, specialization_map R R = Some m ∧
       ∀ k v, m !! k = Some v → v = FVar k.
Proof.
  unfold specialization_map. rewrite Nat.eqb_refl. simpl.
  destruct (formula_specialization_map_refl (conclusion R)) as (c & -> & Hc).
  by apply specialization_map_loop_refl.
Qed.

Lemma substitute_variables_id f (m : SpecializationMap) :
  (∀ k v, m !! k = Some v → v = FVar k) → substitute_variables f m = f.
Proof.
  intros Hm. induction f as [c|x|o g IH|o g1 IH1 g2 IH2]; simpl;
    try congruence.
  destruct (m !! x) as [v|] eqn:Hx; [|done]. simpl. by rewrite (Hm _ _ Hx).
Qed.

Lemma is_specialization_of_refl R : is_specialization_of R R = true.
Proof.
  unfold is_specialization_of. apply bool_decide_eq_true_2.
  by destruct (specialization_map_refl R) as (m & -> & _).
Qed.

Lemma is_specialization_of_iff S R :
  is_specialization_of S R = true ↔ ∃ m, specialize R m = S.
Proof.
  split.
  - intros H. unfold is_specialization_of in H.
    apply bool_decide_eq_true_1 in H.
    destruct (specialization_map R S) as [m|] eqn:Hm; [|done].
    exists m. by apply specialization_map_sound.
  - intros [m <-]. apply is_specialization_of_specialize.
    apply is_specialization_of_refl.
Qed.

End specialization_map_more.

(** X8: the map that [specialization_map] returns is the minimal one: its
    keys are exactly the variables of the rule, and every map that
    specializes the rule to the same specialization substitutes each of
    these variables by the formula that the returned map binds to it. *)
Theorem specialization_map_minimal (R S : InferenceRule)
    (m : SpecializationMap) :
  InferenceRule.specialization_map R S = Some m →
  dom m = InferenceRule.variables R ∧
  ∀ m', InferenceRule.specialize R m' = S →
        ∀ k v, m !! k = Some v → substitute_variables (FVar k) m' = v.
Proof.
  unfold InferenceRule.specialization_map, InferenceRule.variables.
  destruct (length (assumptions R) =? length (assumptions S))%nat eqn:Hlen;
    [|done].
  apply Nat.eqb_eq in Hlen. simpl. intros Hm.
  destruct (InferenceRule._formula_specialization_map (conclusion R)
              (conclusion S)) as [c|] eqn:Hc;
    [|by rewrite specialization_map_loop_None in Hm].
  split.
  - rewrite (specialization_map_loop_dom _ _ _ _ Hlen Hm).
    by rewrite (formula_specialization_map_dom _ _ _ Hc).
  - intros m' HS. destruct S as [ss s]. injection HS as Hss Hs. simpl in *.
    apply (specialization_map_loop_unique _ _ _ _ _ Hm Hss).
    by apply (formula_specialization_map_unique _ _ _ _ Hc).
Qed.

Lemma specialization_map_minimal_witness :
  InferenceRule.specialization_map or_intro
    (mkInferenceRule [or_ vr vr] (or_ (or_ vr vr) vq))
  = Some {[ "p" := or_ vr vr; "q" := vq ]} ∧
  dom ({[ "p" := or_ vr vr; "q" := vq ]} : SpecializationMap)
  = InferenceRule.variables or_intro ∧
  ∀ m', InferenceRule.specialize or_intro m'
        = mkInferenceRule [or_ vr vr] (or_ (or_ vr vr) vq) →
        ∀ k v, ({[ "p" := or_ vr vr; "q" := vq ]} : SpecializationMap) !! k
               = Some v →
               substitute_variables (FVar k) m' = v.
Proof.
  assert (InferenceRule.specialization_map or_intro
            (mkInferenceRule [or_ vr vr] (or_ (or_ vr vr) vq))
          = Some {[ "p" := or_ vr vr; "q" := vq ]}) as H by by vm_compute.
  split; [done|]. by apply specialization_map_minimal.
Defined.

(** X9: [is_specialization_of] decides exactly whether some map specializes
    the general rule to the given one: whatever the map, the rule that
    [specialize] returns is a specialization of the rule, and a
    specialization of a rule is the result of [specialize] for some map. *)
Theorem is_specialization_of_complete (S R : InferenceRule) :
  InferenceRule.is_specialization_of S R = true ↔
  ∃ m, InferenceRule.specialize R m = S.
Proof. apply is_specialization_of_iff. Qed.

(** X10: [is_specialization_of] is reflexive and transitive. *)
Theorem is_specialization_of_preorder (R S T : InferenceRule) :
  InferenceRule.is_specialization_of R R = true ∧
  (InferenceRule.is_specialization_of T S = true →
   InferenceRule.is_specialization_of S R = true →
   InferenceRule.is_specialization_of T R = true).
Proof.
  split; [apply is_specialization_of_refl|].
  intros [m <-]%is_specialization_of_iff HSR.
  by apply is_specialization_of_specialize.
Qed.

Lemma is_specialization_of_preorder_witness :
  InferenceRule.is_specialization_of
    (mkInferenceRule [vr] (or_ vr vr)) or_intro = true.
Proof.
  apply (proj2 (is_specialization_of_preorder or_intro double
                  (mkInferenceRule [vr] (or_ vr vr)))); by vm_compute.
Defined.

(** X11: specializing a valid proof to its own statement returns the same
    proof. *)
Theorem prove_specialization_same (proof : Proof) :
  Proof.is_valid proof = Ok true →
  prove_specialization proof (statement proof) = Ok proof.
Proof.
  intros Hv.
  destruct (specialization_map_refl (statement proof)) as (m & Hm & Hid).
  destruct (prove_specialization_Ok _ _ _ Hv Hm) as [-> _].
  f_equal. destruct proof as [s rs ls]. simpl. f_equal.
  clear Hv Hm. induction ls as [|l ls IH]; [done|]. simpl. f_equal; [|done].
  unfold specialize_line. rewrite (substitute_variables_id _ _ Hid).
  by destruct l.
Qed.

Lemma prove_specialization_same_witness :
  prove_specialization double_proof (statement double_proof) = Ok double_proof.
Proof. apply prove_specialization_same. by vm_compute. Defined.

(** ** When the validity checks raise *)

Lemma py_index_Err {A} (t : list A) (i : Z) (e : error) :
  py_index t i = Err e ↔
  e = IndexError ∧ ¬ (- Z.of_nat (length t) ≤ i < Z.of_nat (length t)).
Proof.
  unfold py_index.
  destruct (Z.ltb_spec i 0) as [Hi|Hi].
  - destruct (Z.ltb_spec (i + Z.of_nat (length t)) 0) as [Hk|Hk].
    + split; [intros ?; simplify_eq; split; [done|lia]|]. by intros [-> _].
    + destruct (lookup_lt_is_Some_2 t (Z.to_nat (i + Z.of_nat (length t))))
        as [x ->]; [lia|].
      split; [done|]. intros [_ H]. lia.
  - destruct (Z.ltb_spec i 0) as [|_]; [lia|].
    destruct (t !! Z.to_nat i) as [x|] eqn:Ht.
    + apply lookup_lt_Some in Ht. split; [done|]. intros [_ H]. lia.
    + apply lookup_ge_None in Ht.
      split; [intros ?; simplify_eq; split; [done|lia]|]. by intros [-> _].
Qed.

Lemma py_index_total {A} (t : list A) (i : Z) :
  - Z.of_nat (length t) ≤ i < Z.of_nat (length t) → ∃ x, py_index t i = Ok x.
Proof.
  intros Hi. destruct (py_index t i) as [x|e] eqn:H; [by eauto|].
  by apply py_index_Err in H as [_ ?].
Qed.

Lemma rmap_Err_inv {A B} (f : A → result B) (xs : list A) (e : error) :
  rmap f xs = Err e → ∃ x, x ∈ xs ∧ f x = Err e.
Proof.
  induction xs as [|x xs IH]; simpl; [done|].
  destruct (f x) as [y|e'] eqn:Hx; simpl.
  - destruct (rmap f xs) as [ys|e'']; simpl; [done|].
    intros ?; simplify_eq. destruct IH as (x' & ? & ?); [done|].
    exists x'. split; [by right|done].
  - intros ?; simplify_eq. exists x. split; [by left|done].
Qed.

Lemma rmap_total {A B} (f : A → result B) (xs : list A) :
  Forall (λ x, ∃ y, f x = Ok y) xs → ∃ ys, rmap f xs = Ok ys.
Proof.
  induction 1 as [|x xs [y Hy] _ [ys Hys]]; simpl; [by eauto|].
  rewrite Hy, Hys. simpl. eauto.
Qed.

Section raising.
Import Proof.

Lemma is_line_valid_derivation_outcome self i f rule js :
  lines self !! i = Some (DerivationLine f rule js) →
  is_line_valid self i
  = match rmap (λ j, let! l := py_index (lines self) j in Ok (Line.formula l))
               js with
    | Ok fs =>
        if existsb (λ j, (j >=? Z.of_nat i)%Z) js then Ok false
        else if bool_decide (rule ∈ rules self)
             then Ok (InferenceRule.is_specialization_of
                        (mkInferenceRule fs f) rule)
             else Ok false
    | Err e => Err e
    end.
Proof.
  intros Hi. unfold is_line_valid, rule_for_line.
  pose proof (lookup_lt_Some _ _ _ Hi) as Hlt.
  apply Nat.ltb_lt in Hlt. rewrite Hlt, Hi. simpl.
  by destruct (rmap _ js).
Qed.

Lemma is_line_valid_in_range self i line :
  lines self !! i = Some line →
  match line with
  | AssumptionLine _ => True
  | DerivationLine _ _ js =>
      Forall (λ j, - Z.of_nat (length (lines self)) ≤ j
                   < Z.of_nat (length (lines self))) js
  end →
  ∃ b, is_line_valid self i = Ok b.
Proof.
  intros Hi Hr. destruct line as [f|f rule js].
  - rewrite (is_line_valid_assumption _ _ _ Hi). eauto.
  - rewrite (is_line_valid_derivation_outcome _ _ _ _ _ Hi).
    destruct (rmap_total
                (λ j, let! l := py_index (lines self) j in Ok (Line.formula l))
                js) as [fs ->].
    { eapply Forall_impl; [done|]. simpl. intros j Hj.
      destruct (py_index_total (lines self) j Hj) as [l ->]. simpl. eauto. }
    destruct (existsb _ js); [by eauto|]. case_bool_decide; eauto.
Qed.

Lemma is_line_valid_Err self i line e :
  lines self !! i = Some line →
  is_line_valid self i = Err e →
  e = IndexError ∧
  ∃ f rule js j, line = DerivationLine f rule js ∧ j ∈ js ∧
    ¬ (- Z.of_nat (length (lines self)) ≤ j < Z.of_nat (length (lines self))).
Proof.
  intros Hi He. destruct line as [f|f rule js].
  - by rewrite (is_line_valid_assumption _ _ _ Hi) in He.
  - rewrite (is_line_valid_derivation_outcome _ _ _ _ _ Hi) in He.
    destruct (rmap _ js) as [fs|e'] eqn:Hjs.
    + destruct (existsb _ js); [done|]. by case_bool_decide.
    + simplify_eq. apply rmap_Err_inv in Hjs as (j & Hj & Hl).
      destruct (py_index (lines self) j) as [l|e'] eqn:Hp; [done|].
      simpl in Hl. simplify_eq. apply py_index_Err in Hp as [-> Hout].
      split; [done|]. eauto 10.
Qed.

Lemma is_valid_loop_outcome self line_numbers :
  Forall (λ i, ∃ b, is_line_valid self i = Ok b) line_numbers →
  ∃ b, is_valid_loop self line_numbers = Ok b.
Proof.
  induction 1 as [|i is_ [b Hb] _ [b' Hb']]; simpl; [by eauto|].
  rewrite Hb. simpl. destruct b; eauto.
Qed.

Lemma is_valid_loop_Err self line_numbers e :
  is_valid_loop self line_numbers = Err e →
  ∃ i, i ∈ line_numbers ∧ is_line_valid self i = Err e.
Proof.
  induction line_numbers as [|i is_ IH]; simpl; [done|].
  destruct (is_line_valid self i) as [[]|e'] eqn:Hi; simpl.
  - intros (i' & ? & ?)%IH. exists i'. split; [by right|done].
  - done.
  - intros ?; simplify_eq. exists i. split; [by left|done].
Qed.

End raising.

(** X12: on a line of the proof, [is_line_valid] raises exactly when the
    line is a derivation line with a justification number outside
    [-len(lines) .. len(lines) - 1], and what it raises is [IndexError];
    in every other case it returns a Boolean. *)
Theorem is_line_valid_raises (self : Proof) (line_number : nat) (line : Line) :
  lines self !! line_number = Some line →
  (∀ e, Proof.is_line_valid self line_number = Err e → e = IndexError) ∧
  ((∃ e, Proof.is_line_valid self line_number = Err e) ↔
   ∃ f rule js j, line = DerivationLine f rule js ∧ j ∈ js ∧
     ¬ (- Z.of_nat (length (lines self)) ≤ j < Z.of_nat (length (lines self)))).
Proof.
  intros Hi. split; [|split].
  - intros e He. by destruct (is_line_valid_Err _ _ _ _ Hi He) as [? _].
  - intros [e He]. by destruct (is_line_valid_Err _ _ _ _ Hi He) as [_ ?].
  - intros (f & rule & js & j & -> & Hj & Hout).
    destruct (Proof.is_line_valid self line_number) as [b|e] eqn:Hv;
      [|by eauto].
    exfalso. rewrite (is_line_valid_derivation_outcome _ _ _ _ _ Hi) in Hv.
    destruct (rmap _ js) as [fs|e'] eqn:Hjs; [|done].
    apply rmap_Ok in Hjs.
    apply Forall2_Forall_l
      with (Q := λ j, ∃ l, py_index (lines self) j = Ok l) in Hjs.
    + eapply Forall_forall in Hjs as [l Hl]; [|done].
      assert (py_index (lines self) j = Err IndexError) as Hl'
        by by apply py_index_Err.
      congruence.
    + apply Forall_forall. intros g _ j' Hj'.
      destruct (py_index (lines self) j') as [l|]; [by eauto|done].
Qed.

Lemma is_line_valid_raises_witness :
  lines beyond_proof !! 0%nat = Some (DerivationLine vq repeat_rule [3]) ∧
  (∀ e, Proof.is_line_valid beyond_proof 0 = Err e → e = IndexError) ∧
  ((∃ e, Proof.is_line_valid beyond_proof 0 = Err e) ↔
   ∃ f rule js j,
     DerivationLine vq repeat_rule [3] = DerivationLine f rule js ∧ j ∈ js ∧
     ¬ (- Z.of_nat (length (lines beyond_proof)) ≤ j
        < Z.of_nat (length (lines beyond_proof)))).
Proof.
  split; [reflexivity|]. by apply is_line_valid_raises.
Defined.

(** X13: [is_valid] returns a Boolean for every proof all of whose
    justification numbers lie in [-len(lines) .. len(lines) - 1], the empty
    proof included; when it raises, it raises [IndexError]. *)
Theorem is_valid_raises (self : Proof) :
  (in_range (length (lines self)) (lines self) →
   ∃ b, Proof.is_valid self = Ok b) ∧
  (∀ e, Proof.is_valid self = Err e → e = IndexError).
Proof.
  unfold Proof.is_valid. split.
  - intros Hr. destruct (length (lines self) =? 0)%nat eqn:Hlen; [by eauto|].
    apply Nat.eqb_neq in Hlen.
    destruct (is_valid_loop_outcome self (seq 0 (length (lines self))))
      as [b ->].
    { apply Forall_forall. intros i Hi%elem_of_seq.
      destruct (lookup_lt_is_Some_2 (lines self) i) as [line Hline]; [lia|].
      apply (is_line_valid_in_range _ _ _ Hline).
      eapply Forall_forall in Hr; [|by eapply list_elem_of_lookup_2].
      by destruct line. }
    simpl. destruct b; [|by eauto].
    destruct (lookup_lt_is_Some_2 (lines self) (length (lines self) - 1))
      as [line ->]; [lia|]. eauto.
  - intros e. destruct (length (lines self) =? 0)%nat eqn:Hlen; [done|].
    apply Nat.eqb_neq in Hlen.
    destruct (Proof.is_valid_loop self (seq 0 (length (lines self))))
      as [b|e'] eqn:Hloop; simpl.
    + destruct b; [|done].
      destruct (lookup_lt_is_Some_2 (lines self) (length (lines self) - 1))
        as [line ->]; [lia|]. done.
    + intros ?; simplify_eq.
      apply is_valid_loop_Err in Hloop as (i & Hi%elem_of_seq & He).
      destruct (lookup_lt_is_Some_2 (lines self) i) as [line Hline]; [lia|].
      by destruct (is_line_valid_Err _ _ _ _ Hline He) as [? _].
Qed.

Lemma is_valid_raises_witness :
  in_range (length (lines double_proof_from_end))
           (lines double_proof_from_end) ∧
  ∃ b, Proof.is_valid double_proof_from_end = Ok b.
Proof.
  assert (in_range (length (lines double_proof_from_end))
                   (lines double_proof_from_end)) as H by compute_done.
  split; [done|]. by apply (proj1 (is_valid_raises double_proof_from_end)).
Defined.

(** ** Valid proofs *)

(** X14: a valid proof stays valid when rules are added to its allowed
    rules. *)
Theorem is_valid_more_rules (self : Proof) (more : gset InferenceRule) :
  Proof.is_valid self = Ok true →
  Proof.is_valid (mkProof (statement self) (rules self ∪ more) (lines self))
  = Ok true.
Proof.
  intros [Hlines Hlast]%is_valid_true. apply is_valid_true. simpl.
  split; [|done]. intros i Hi. specialize (Hlines i Hi).
  apply lookup_lt_is_Some_2 in Hi as [line Hline].
  set (self' := mkProof (statement self) (rules self ∪ more) (lines self)).
  assert (lines self' !! i = Some line) as Hline' by done.
  destruct line as [f|f rule js].
  - rewrite (is_line_valid_assumption _ _ _ Hline) in Hlines.
    by rewrite (is_line_valid_assumption _ _ _ Hline').
  - pose proof (proj1 (is_line_valid_derivation _ _ _ _ _ Hline) Hlines)
      as (Hjs & Hin & fs & Hfs & Hsp).
    apply (is_line_valid_derivation _ _ _ _ _ Hline'). simpl.
    split_and!; [done|set_solver|eauto].
Qed.

Lemma is_valid_more_rules_witness :
  Proof.is_valid
    (mkProof (statement double_proof) (rules double_proof ∪ {[ repeat_rule ]})
             (lines double_proof)) = Ok true.
Proof. apply is_valid_more_rules. by vm_compute. Defined.

(** X15: in a valid proof without negative justification numbers, the lines
    up to any line are a valid proof of the formula of that line from the
    assumptions of the statement. *)
Theorem is_valid_prefix (self : Proof) (i : nat) (line : Line) :
  Proof.is_valid self = Ok true →
  nonneg (lines self) →
  lines self !! i = Some line →
  Proof.is_valid
    (mkProof (mkInferenceRule (assumptions (statement self)) (Line.formula line))
             (rules self) (take (S i) (lines self))) = Ok true.
Proof.
  intros Hv Hnn Hi.
  assert (proper self) as [Hj _] by by apply proper_valid.
  apply proper_valid. split; simpl.
  - intros k l Hk. apply lookup_take_Some in Hk as [Hk Hlt].
    specialize (Hj _ _ Hk). destruct l as [f|f rule js]; [done|].
    destruct Hj as (Hr & fs & Hc & Hsp). split; [done|]. exists fs.
    split; [|done]. eapply cites_agree; [|done].
    intros k' Hk'. rewrite lookup_take_lt; [done|lia].
  - exists line. split; [|done]. rewrite last_lookup, length_take.
    pose proof (lookup_lt_Some _ _ _ Hi).
    replace (Nat.pred (S i `min` length (lines self))) with i by lia.
    rewrite lookup_take_lt; [done|lia].
Qed.

Lemma is_valid_prefix_witness :
  Proof.is_valid
    (mkProof (mkInferenceRule (assumptions (statement quadruple_proof))
                (or_ vr vr))
             (rules quadruple_proof) (take 2 (lines quadruple_proof)))
  = Ok true.
Proof.
  apply (is_valid_prefix quadruple_proof 1 (DerivationLine (or_ vr vr) double [0])).
  - by vm_compute.
  - compute_done.
  - reflexivity.
Defined.

(** ** One inlining step *)

Lemma filter_derivation_specialize m (ls : list Line) :
  filter (λ l, is_derivation l = true) (map (specialize_line m) ls)
  = map (specialize_line m) (filter (λ l, is_derivation l = true) ls).
Proof.
  induction ls as [|l ls IH]; [done|]. simpl map.
  destruct l as [f|f r js].
  - change (filter (λ l, is_derivation l = true)
              (specialize_line m (AssumptionLine f)
               :: map (specialize_line m) ls))
      with (filter (λ l, is_derivation l = true) (map (specialize_line m) ls)).
    change (filter (λ l, is_derivation l = true) (AssumptionLine f :: ls))
      with (filter (λ l, is_derivation l = true) ls).
    done.
  - change (filter (λ l, is_derivation l = true)
              (specialize_line m (DerivationLine f r js)
               :: map (specialize_line m) ls))
      with (specialize_line m (DerivationLine f r js)
            :: filter (λ l, is_derivation l = true)
                 (map (specialize_line m) ls)).
    change (filter (λ l, is_derivation l = true) (DerivationLine f r js :: ls))
      with (DerivationLine f r js
            :: filter (λ l, is_derivation l = true) ls).
    simpl map. by rewrite IH.
Qed.

Lemma inline_proof_once_result main_proof line_number lemma_proof result :
  _inline_proof_once main_proof line_number lemma_proof = Ok result →
  ∃ f js target m D,
    lines main_proof !! line_number
    = Some (DerivationLine f (statement lemma_proof) js) ∧
    Proof.rule_for_line main_proof line_number = Ok (Some target) ∧
    InferenceRule.specialization_map (statement lemma_proof) target = Some m ∧
    Forall2 renumbered D
      (map (specialize_line m)
         (filter (λ l, is_derivation l = true) (lines lemma_proof))) ∧
    result =
      mkProof (statement main_proof) (rules main_proof ∪ rules lemma_proof)
        (take line_number (lines main_proof) ++ D ++
         map (shift_line line_number (Z.of_nat (length D) - 1))
             (drop (S line_number) (lines main_proof)))%list.
Proof.
  intros H. pose proof H as (f & js & target & partial_proof & D & Hl & Ht & Hp
                             & HF & Hlines)%inline_proof_once_lines.
  apply inline_proof_once_inv in H
    as (f' & js' & target' & partial' & st & _ & _ & _ & _ & _ & _ & ->).
  apply prove_specialization_inv in Hp as (m & Hm & _ & ->). simpl in HF.
  rewrite filter_derivation_specialize in HF.
  exists f, js, target, m, D. split_and!; try done.
  simpl in Hlines. by rewrite Hlines.
Qed.

Lemma usage_count_filter_derivation L (ls : list Line) :
  usage_count L (filter (λ l, is_derivation l = true) ls) = usage_count L ls.
Proof.
  induction ls as [|l ls IH]; [done|]. destruct l as [f|f r js].
  - change (filter (λ l, is_derivation l = true) (AssumptionLine f :: ls))
      with (filter (λ l, is_derivation l = true) ls).
    by rewrite usage_count_cons, IH.
  - change (filter (λ l, is_derivation l = true) (DerivationLine f r js :: ls))
      with (DerivationLine f r js
            :: filter (λ l, is_derivation l = true) ls).
    by rewrite !usage_count_cons, IH.
Qed.

Lemma usage_count_Forall2_renumbered L D ls :
  Forall2 renumbered D ls → usage_count L D = usage_count L ls.
Proof.
  induction 1 as [|d l D ls Hdl _ IH]; [done|].
  by rewrite !usage_count_cons, (uses_lemma_renumbered _ _ _ Hdl), IH.
Qed.

Lemma inline_proof_once_usage_exact main_proof line_number lemma_proof result :
  _inline_proof_once main_proof line_number lemma_proof = Ok result →
  (usage_count (statement lemma_proof) (lines result) + 1)%nat
  = (usage_count (statement lemma_proof) (lines main_proof)
     + usage_count (statement lemma_proof) (lines lemma_proof))%nat.
Proof.
  intros (f & js & target & m & D & Hl & Ht & Hm & HF & ->)
    %inline_proof_once_result.
  simpl lines.
  assert (usage_count (statement lemma_proof) (lines main_proof)
          = usage_count (statement lemma_proof)
              (take line_number (lines main_proof)
               ++ DerivationLine f (statement lemma_proof) js
               :: drop (S line_number) (lines main_proof))) as ->
    by (by rewrite take_drop_middle).
  rewrite !usage_count_app, usage_count_cons.
  rewrite (usage_count_map _ (shift_line _ _)) by apply uses_lemma_shift_line.
  rewrite (usage_count_Forall2_renumbered _ _ _ HF).
  rewrite (usage_count_map _ (specialize_line m))
    by apply uses_lemma_specialize_line.
  rewrite usage_count_filter_derivation.
  assert (uses_lemma (statement lemma_proof)
            (DerivationLine f (statement lemma_proof) js) = true) as ->.
  { unfold uses_lemma. simpl. by rewrite bool_decide_eq_true_2. }
  lia.
Qed.

(** X16: the proof that [_inline_proof_once] returns has the statement of
    the main proof and the rules of both proofs; it has as many lines as the
    main proof and the derivation lines of the lemma proof together, less
    one; and from [line_number] on it holds the derivation lines of the
    lemma proof in their order, each with its rule and with its formula
    rewritten by the map that specializes the statement of the lemma proof
    to the rule of the replaced line. *)
Theorem inline_proof_once_shape (main_proof : Proof) (line_number : nat)
    (lemma_proof result : Proof) :
  _inline_proof_once main_proof line_number lemma_proof = Ok result →
  ∃ target m,
    Proof.rule_for_line main_proof line_number = Ok (Some target) ∧
    InferenceRule.specialization_map (statement lemma_proof) target = Some m ∧
    statement result = statement main_proof ∧
    rules result = rules main_proof ∪ rules lemma_proof ∧
    (length (lines result) + 1
     = length (lines main_proof)
       + length (filter (λ l, is_derivation l = true) (lines lemma_proof)))%nat ∧
    ∀ k f r js,
      filter (λ l, is_derivation l = true) (lines lemma_proof) !! k
      = Some (DerivationLine f r js) →
      ∃ js', lines result !! (line_number + k)%nat
             = Some (DerivationLine (substitute_variables f m) r js').
Proof.
  intros (f & js & target & m & D & Hl & Ht & Hm & HF & ->)
    %inline_proof_once_result.
  exists target, m. split_and!; try done; simpl.
  - pose proof (lookup_lt_Some _ _ _ Hl) as Hn.
    apply Forall2_length in HF. rewrite length_map in HF.
    rewrite !length_app, length_map, length_take, length_drop. lia.
  - intros k g r js0 Hk.
    pose proof (lookup_lt_Some _ _ _ Hl) as Hn.
    assert (map (specialize_line m)
              (filter (λ l, is_derivation l = true) (lines lemma_proof)) !! k
            = Some (DerivationLine (substitute_variables g m) r js0)) as Hk'.
    { change (map ?h ?l) with (h <$> l). by rewrite list_lookup_fmap, Hk. }
    destruct (Forall2_lookup_r _ _ _ _ _ HF Hk')
      as (d & Hd & (g' & r' & js1 & js' & Heq & ->)).
    injection Heq as <- <- <-. exists js'.
    rewrite lookup_app_r by (rewrite length_take; lia).
    rewrite length_take.
    replace (line_number + k - line_number `min` length (lines main_proof))%nat
      with k by lia.
    by apply lookup_app_l_Some.
Qed.

Lemma inline_proof_once_shape_witness :
  ∃ result target m,
    _inline_proof_once quadruple_proof 1 double_proof = Ok result ∧
    Proof.rule_for_line quadruple_proof 1 = Ok (Some target) ∧
    InferenceRule.specialization_map (statement double_proof) target = Some m ∧
    statement result = statement quadruple_proof ∧
    rules result = rules quadruple_proof ∪ rules double_proof ∧
    (length (lines result) + 1
     = length (lines quadruple_proof)
       + length (filter (λ l, is_derivation l = true) (lines double_proof)))%nat ∧
    ∀ k f r js,
      filter (λ l, is_derivation l = true) (lines double_proof) !! k
      = Some (DerivationLine f r js) →
      ∃ js', lines result !! (1 + k)%nat
             = Some (DerivationLine (substitute_variables f m) r js').
Proof.
  assert (∃ result,
            _inline_proof_once quadruple_proof 1 double_proof = Ok result)
    as [result H] by (by eexists; vm_compute).
  destruct (inline_proof_once_shape quadruple_proof 1 double_proof result H)
    as (target & m & H').
  exists result, target, m. split; [exact H|exact H'].
Defined.

(** X17: for a valid main proof and a valid lemma proof, both without
    negative justification numbers, the lemma proof ending with a derivation
    line, and a line of the main proof whose rule is the statement of the
    lemma proof, [_inline_proof_once] returns a valid proof without negative
    justification numbers. *)
Theorem inline_proof_once_valid (main_proof : Proof) (line_number : nat)
    (lemma_proof : Proof) (f : Formula) (js : list Z) :
  Proof.is_valid main_proof = Ok true →
  nonneg (lines main_proof) →
  Proof.is_valid lemma_proof = Ok true →
  nonneg (lines lemma_proof) →
  ends_with_derivation (lines lemma_proof) →
  lines main_proof !! line_number
  = Some (DerivationLine f (statement lemma_proof) js) →
  ∃ result,
    _inline_proof_once main_proof line_number lemma_proof = Ok result ∧
    Proof.is_valid result = Ok true ∧
    nonneg (lines result).
Proof.
  intros Hvm Hnm Hvl Hnl Hlast Hline.
  assert (proper main_proof) as Hpm by by apply proper_valid.
  assert (proper lemma_proof) as Hpl by by apply proper_valid.
  destruct (inline_proof_once_proper _ _ _ _ _ Hpm Hpl Hline Hlast)
    as (result & Hstep & [Hv Hn]%proper_valid & _).
  eauto.
Qed.

Lemma inline_proof_once_valid_witness :
  ∃ result,
    _inline_proof_once quadruple_proof 1 double_proof = Ok result ∧
    Proof.is_valid result = Ok true ∧
    nonneg (lines result).
Proof.
  apply (inline_proof_once_valid quadruple_proof 1 double_proof
           (or_ vr vr) [0]).
  - by vm_compute.
  - compute_done.
  - by vm_compute.
  - compute_done.
  - compute_done.
  - reflexivity.
Defined.

(** X18: the proof that [_inline_proof_once] returns uses the lemma in as
    many lines as the main proof and the lemma proof together, less one. *)
Theorem inline_proof_once_usage_count (main_proof : Proof) (line_number : nat)
    (lemma_proof result : Proof) :
  _inline_proof_once main_proof line_number lemma_proof = Ok result →
  (usage_count (statement lemma_proof) (lines result) + 1)%nat
  = (usage_count (statement lemma_proof) (lines main_proof)
     + usage_count (statement lemma_proof) (lines lemma_proof))%nat.
Proof. apply inline_proof_once_usage_exact. Qed.

Lemma inline_proof_once_usage_count_witness :
  (usage_count (statement circular_proof) (lines circular_proof) + 1)%nat
  = (usage_count (statement circular_proof) (lines circular_proof)
     + usage_count (statement circular_proof) (lines circular_proof))%nat.
Proof.
  apply (inline_proof_once_usage_count circular_proof 0 circular_proof).
  by vm_compute.
Defined.

(** ** What [inline_proof] returns *)

Lemma inline_proof_unfold fuel main_proof lemma_proof :
  Proof.is_valid main_proof = Ok true →
  Proof.is_valid lemma_proof = Ok true →
  inline_proof fuel main_proof lemma_proof
  = match inline_proof_loop fuel main_proof lemma_proof with
    | Some (Ok new_proof) =>
        Some (Ok (mkProof (statement new_proof)
                          (rules new_proof ∖ {[ statement lemma_proof ]})
                          (lines new_proof)))
    | other => other
    end.
Proof.
  intros Hvm Hvl. unfold inline_proof, assert_valid. by rewrite Hvm, Hvl.
Qed.

Lemma inline_proof_Ok_inv fuel main_proof lemma_proof result :
  inline_proof fuel main_proof lemma_proof = Some (Ok result) →
  Proof.is_valid main_proof = Ok true ∧
  Proof.is_valid lemma_proof = Ok true ∧
  ∃ new_proof,
    inline_proof_loop fuel main_proof lemma_proof = Some (Ok new_proof) ∧
    result = mkProof (statement new_proof)
                     (rules new_proof ∖ {[ statement lemma_proof ]})
                     (lines new_proof).
Proof.
  unfold inline_proof, assert_valid. intros H.
  destruct (Proof.is_valid main_proof) as [[]|e] eqn:Hvm; simpl in H;
    try discriminate.
  destruct (Proof.is_valid lemma_proof) as [[]|e] eqn:Hvl; simpl in H;
    try discriminate.
  destruct (inline_proof_loop fuel main_proof lemma_proof) as [[new_proof|e]|]
    eqn:Hloop; try discriminate.
  injection H as <-. split_and!; try done. by exists new_proof.
Qed.

Lemma lemma_free_list_find L (ls : list Line) :
  lemma_free L ls →
  list_find (λ line, uses_lemma L line = true) ls = None.
Proof.
  intros H. apply list_find_None. eapply Forall_impl; [exact H|]. simpl.
  intros line ->. done.
Qed.

Lemma inline_proof_loop_self_use lemma_proof fuel proof result :
  ¬ lemma_free (statement lemma_proof) (lines lemma_proof) →
  ¬ lemma_free (statement lemma_proof) (lines proof) →
  inline_proof_loop fuel proof lemma_proof ≠ Some (Ok result).
Proof.
  intros Hl. revert proof. induction fuel as [|fuel IH]; intros proof Hp;
    [done|]. simpl.
  destruct (list_find _ (lines proof)) as [[i line]|] eqn:Hfind.
  - destruct (_inline_proof_once proof i lemma_proof) as [proof'|e] eqn:Hstep;
      [|done].
    apply IH. intros Hfree%usage_count_zero.
    apply inline_proof_once_usage_exact in Hstep.
    assert (usage_count (statement lemma_proof) (lines lemma_proof) ≠ 0%nat)
      by (by rewrite usage_count_zero).
    assert (usage_count (statement lemma_proof) (lines proof) ≠ 0%nat)
      by (by rewrite usage_count_zero).
    lia.
  - by apply list_find_None_usage in Hfind.
Qed.

Lemma inline_proof_loop_result lemma_proof fuel proof result :
  inline_proof_loop fuel proof lemma_proof = Some (Ok result) →
  statement result = statement proof ∧
  lemma_free (statement lemma_proof) (lines result) ∧
  (lemma_free (statement lemma_proof) (lines proof) → result = proof) ∧
  (¬ lemma_free (statement lemma_proof) (lines proof) →
   rules result = rules proof ∪ rules lemma_proof).
Proof.
  revert proof. induction fuel as [|fuel IH]; intros proof; [done|]. simpl.
  destruct (list_find _ (lines proof)) as [[i line]|] eqn:Hfind.
  - destruct (_inline_proof_once proof i lemma_proof) as [proof'|e] eqn:Hstep;
      [|done].
    intros (Hs & Hf & Hsame & Hrules)%IH.
    apply inline_proof_once_result in Hstep
      as (f & js & target & m & D & _ & _ & _ & _ & Hp').
    assert (statement proof' = statement proof) as Hs' by by rewrite Hp'.
    assert (rules proof' = rules proof ∪ rules lemma_proof) as Hr'
      by by rewrite Hp'.
    split_and!; [congruence|done|..].
    + intros Hfree%lemma_free_list_find. congruence.
    + intros _.
      destruct (decide (lemma_free (statement lemma_proof) (lines proof')))
        as [Hy|Hn].
      * by rewrite (Hsame Hy).
      * rewrite (Hrules Hn), Hr'. set_solver.
  - intros ?; simplify_eq. split_and!; try done.
    + by apply list_find_None_usage.
    + intros Hn. by apply list_find_None_usage in Hfind.
Qed.

(** Removing from the allowed rules a rule that no line uses keeps a proof
    valid. *)
Lemma is_valid_drop_rule (self : Proof) (L : InferenceRule) :
  Proof.is_valid self = Ok true →
  lemma_free L (lines self) →
  Proof.is_valid (mkProof (statement self) (rules self ∖ {[ L ]}) (lines self))
  = Ok true.
Proof.
  intros [Hlines Hlast]%is_valid_true Hfree. apply is_valid_true. simpl.
  split; [|done]. intros i Hi. specialize (Hlines i Hi).
  apply lookup_lt_is_Some_2 in Hi as [line Hline].
  set (self' := mkProof (statement self) (rules self ∖ {[ L ]}) (lines self)).
  assert (lines self' !! i = Some line) as Hline' by done.
  eapply Forall_forall in Hfree; [|by eapply list_elem_of_lookup_2].
  destruct line as [f|f rule js].
  - rewrite (is_line_valid_assumption _ _ _ Hline) in Hlines.
    by rewrite (is_line_valid_assumption _ _ _ Hline').
  - pose proof (proj1 (is_line_valid_derivation _ _ _ _ _ Hline) Hlines)
      as (Hjs & Hin & fs & Hfs & Hsp).
    apply (is_line_valid_derivation _ _ _ _ _ Hline'). simpl.
    split_and!; [done| |eauto].
    apply elem_of_difference. split; [done|]. intros ->%elem_of_singleton.
    assert (uses_lemma L (DerivationLine f L js) = true); [|congruence].
    apply uses_lemma_true. eauto.
Qed.

(** X19: when some line of the main proof and some line of the lemma proof
    use the lemma, [inline_proof] returns no proof, whatever the number of
    rounds: every round either raises or leaves a line that uses the lemma. *)
Theorem inline_proof_self_use (main_proof lemma_proof : Proof) (fuel : nat)
    (result : Proof) :
  ¬ lemma_free (statement lemma_proof) (lines main_proof) →
  ¬ lemma_free (statement lemma_proof) (lines lemma_proof) →
  inline_proof fuel main_proof lemma_proof ≠ Some (Ok result).
Proof.
  intros Hm Hl (_ & _ & new_proof & Hloop & _)%inline_proof_Ok_inv.
  by apply inline_proof_loop_self_use in Hloop.
Qed.

Lemma inline_proof_self_use_witness :
  inline_proof 5 circular_proof circular_proof ≠ Some (Ok circular_proof).
Proof.
  apply inline_proof_self_use.
  - compute_done.
  - compute_done.
Defined.

(** X20: a proof that [inline_proof] returns has the statement of the main
    proof and no line that uses the lemma; both proofs given were valid.  Its
    allowed rules are those of the main proof without the lemma when no line
    of the main proof uses the lemma, and its lines are then those of the
    main proof; otherwise its allowed rules are those of both proofs without
    the lemma. *)
Theorem inline_proof_result (main_proof lemma_proof : Proof) (fuel : nat)
    (result : Proof) :
  inline_proof fuel main_proof lemma_proof = Some (Ok result) →
  Proof.is_valid main_proof = Ok true ∧
  Proof.is_valid lemma_proof = Ok true ∧
  statement result = statement main_proof ∧
  lemma_free (statement lemma_proof) (lines result) ∧
  (statement lemma_proof ∉ rules result) ∧
  (lemma_free (statement lemma_proof) (lines main_proof) →
   rules result = rules main_proof ∖ {[ statement lemma_proof ]} ∧
   lines result = lines main_proof) ∧
  (¬ lemma_free (statement lemma_proof) (lines main_proof) →
   rules result
   = (rules main_proof ∪ rules lemma_proof) ∖ {[ statement lemma_proof ]}).
Proof.
  intros (Hvm & Hvl & new_proof & Hloop & ->)%inline_proof_Ok_inv.
  apply inline_proof_loop_result in Hloop as (Hs & Hf & Hsame & Hrules).
  simpl. split_and!; try done.
  - set_solver.
  - intros Hfree. by rewrite (Hsame Hfree).
  - intros Hn. by rewrite (Hrules Hn).
Qed.

Lemma inline_proof_result_witness :
  ∃ result,
    inline_proof 3 quadruple_proof double_proof = Some (Ok result) ∧
    Proof.is_valid quadruple_proof = Ok true ∧
    Proof.is_valid double_proof = Ok true ∧
    statement result = statement quadruple_proof ∧
    lemma_free (statement double_proof) (lines result) ∧
    (statement double_proof ∉ rules result) ∧
    (lemma_free (statement double_proof) (lines quadruple_proof) →
     rules result = rules quadruple_proof ∖ {[ statement double_proof ]} ∧
     lines result = lines quadruple_proof) ∧
    (¬ lemma_free (statement double_proof) (lines quadruple_proof) →
     rules result
     = (rules quadruple_proof ∪ rules double_proof)
       ∖ {[ statement double_proof ]}).
Proof.
  assert (∃ result,
            inline_proof 3 quadruple_proof double_proof = Some (Ok result))
    as [result H] by (by eexists; vm_compute).
  exists result. split; [exact H|].
  exact (inline_proof_result quadruple_proof double_proof 3 result H).
Defined.

(** X21: when both proofs are valid and no line of the main proof uses the
    lemma, [inline_proof] returns after its first scan the main proof with
    the lemma removed from its allowed rules, and that proof is valid. *)
Theorem inline_proof_unused (main_proof lemma_proof : Proof) (fuel : nat) :
  Proof.is_valid main_proof = Ok true →
  Proof.is_valid lemma_proof = Ok true →
  lemma_free (statement lemma_proof) (lines main_proof) →
  (1 ≤ fuel)%nat →
  inline_proof fuel main_proof lemma_proof
  = Some (Ok (mkProof (statement main_proof)
                      (rules main_proof ∖ {[ statement lemma_proof ]})
                      (lines main_proof))) ∧
  Proof.is_valid (mkProof (statement main_proof)
                          (rules main_proof ∖ {[ statement lemma_proof ]})
                          (lines main_proof)) = Ok true.
Proof.
  intros Hvm Hvl Hfree Hfuel. split; [|by apply is_valid_drop_rule].
  rewrite inline_proof_unfold by done.
  destruct fuel as [|fuel]; [lia|]. simpl.
  by rewrite (lemma_free_list_find _ _ Hfree).
Qed.

Lemma inline_proof_unused_witness :
  inline_proof 1 idle_proof double_proof_two_rules
  = Some (Ok (mkProof (statement idle_proof)
                      (rules idle_proof ∖ {[ statement double_proof_two_rules ]})
                      (lines idle_proof))) ∧
  Proof.is_valid (mkProof (statement idle_proof)
                          (rules idle_proof
                           ∖ {[ statement double_proof_two_rules ]})
                          (lines idle_proof)) = Ok true.
Proof.
  apply inline_proof_unused.
  - by vm_compute.
  - by vm_compute.
  - compute_done.
  - lia.
Defined.
